(** * gosql: the SQL lexer of [lexer.go]

    A shallow embedding of the lexer (package [gosql], file [lexer.go]) and
    the properties of its specification that were checked against it.

    Modelling conventions.
    - A Go [string] is a sequence of bytes: Rocq's [string], whose characters
      ([ascii]) are exactly the 256 byte values.
    - Go's [uint] is taken to be 64 bits wide: a value of type [N] kept below
      [2^64] by writing the wrap-around out ([Uint.add], [Uint.sub]).
    - A run-time panic (index or slice out of range) is the outcome [Panic].
    - Loops are recursive functions on a fuel counter that is initialised
      with the length of the source; running out of it is the outcome
      [Timeout], shown unreachable for [lex] ([lex_terminates]). *)

From Stdlib Require Import Arith NArith List Bool String Ascii Lia DecimalString Sorted.
Import ListNotations.

Local Open Scope string_scope.
Local Open Scope N_scope.

(** ** Machine integers *)

Module Uint.
Definition width : N := 64.
Definition modulus : N := 2 ^ width.
Definition wrap (n : N) : N := n mod modulus.
Definition add (a b : N) : N := wrap (a + b).
Definition sub (a b : N) : N := wrap (a + modulus - wrap b).
Definition incr (a : N) : N := add a 1.
(** [strconv]-style rendering of [%d]. *)
Definition to_decimal (n : N) : string := NilEmpty.string_of_uint (N.to_uint n).
End Uint.

(** ** Outcomes of a Go call *)

Inductive exec (A : Type) : Type :=
| Done (a : A)
| Panic
| Timeout.
Arguments Done {A} a.
Arguments Panic {A}.
Arguments Timeout {A}.

Definition bind {A B : Type} (m : exec A) (k : A -> exec B) : exec B :=
  match m with
  | Done a => k a
  | Panic => Panic
  | Timeout => Timeout
  end.

Notation "x <- m ;; k" := (bind m (fun x => k))
  (at level 61, m at next level, right associativity).
Notation "' p <- m ;; k" := (bind m (fun x => match x with p => k end))
  (at level 61, p pattern, m at next level, right associativity).

(** ** Go primitives on strings and bytes *)

(** [uint(len(s))] *)
Definition len (s : string) : N := N.of_nat (String.length s).

(** [s[i]], which panics out of range. *)
Definition index (s : string) (i : N) : exec ascii :=
  match String.get (N.to_nat i) s with
  | Some c => Done c
  | None => Panic
  end.

(** [s[lo:hi]], which panics unless [lo <= hi <= len(s)]. *)
Definition slice (s : string) (lo hi : N) : exec string :=
  if (lo <=? hi) && (hi <=? len s)
  then Done (substring (N.to_nat lo) (N.to_nat (hi - lo)) s)
  else Panic.

Definition byte_le (a b : ascii) : bool := N_of_ascii a <=? N_of_ascii b.

(** The ASCII case folding of a byte: ['A'..'Z'] to ['a'..'z']. *)
Definition lower_ascii (c : ascii) : ascii :=
  if byte_le "A" c && byte_le c "Z" then ascii_of_N (N_of_ascii c + 32) else c.

(** [strings.ToLower(s)] for a string [s] of ASCII bytes, where it works byte
    by byte.  [lexIdentifier] calls it on the bytes it accepted, which are
    ASCII letters, digits, [$] and [_]. *)
Fixpoint ToLower (s : string) : string :=
  match s with
  | EmptyString => EmptyString
  | String c s' => String (lower_ascii c) (ToLower s')
  end.

(** The UTF-8 encoding of a rune in [U+0080 .. U+00FF]. *)
Definition utf8_latin1 (r : N) : string :=
  String (ascii_of_N (192 + r / 64)) (String (ascii_of_N (128 + r mod 64)) EmptyString).

(** [unicode.ToLower] on [U+0080 .. U+00FF]: the capital letters
    [U+00C0 .. U+00DE], the multiplication sign [U+00D7] apart, move by 32. *)
Definition lower_latin1 (r : N) : N :=
  if (192 <=? r) && (r <=? 222) && negb (r =? 215) then r + 32 else r.

(** [strings.ToLower(string(c))] for a byte [c]: the conversion of a byte to
    a string is the UTF-8 encoding of the code point of that value, one byte
    below 128 and two bytes from 128 on. *)
Definition ToLower_byte (c : ascii) : string :=
  if N_of_ascii c <? 128
  then String (lower_ascii c) EmptyString
  else utf8_latin1 (lower_latin1 (N_of_ascii c)).

(** ** Data model *)

Record Location : Type := { Line : N; Col : N }.

Inductive TokenKind : Type :=
| KeywordKind
| SymbolKind
| IdentifierKind
| StringKind
| NumericKind.

Record Token : Type := { Value : string; Kind : TokenKind; Loc : Location }.

Record cursor : Type := { pointer : N; loc : Location }.

(** The keyword and symbol constants. *)
Definition SelectKeyword := "select".
Definition FromKeyword := "from".
Definition AsKeyword := "as".
Definition TableKeyword := "table".
Definition CreateKeyword := "create".
Definition InsertKeyword := "insert".
Definition IntoKeyword := "into".
Definition ValuesKeyword := "values".
Definition IntKeyword := "int".
Definition TextKeyword := "text".
Definition WhereKeyword := "where".

Definition SemiColonSymbol := ";".
Definition AsteriskSymbol := "*".
Definition CommaSymbol := ",".
Definition LeftparenSymbol := "(".
Definition RightparenSymbol := ")".

(** [cur.pointer++], [cur.loc.Col++], [cur.loc.Line++] and the assignments
    to the fields of a cursor. *)
Definition set_pointer (cur : cursor) (p : N) : cursor :=
  {| pointer := p; loc := loc cur |}.
Definition set_col (cur : cursor) (c : N) : cursor :=
  {| pointer := pointer cur; loc := {| Line := Line (loc cur); Col := c |} |}.
Definition set_line (cur : cursor) (l : N) : cursor :=
  {| pointer := pointer cur; loc := {| Line := l; Col := Col (loc cur) |} |}.
Definition pointer_incr (cur : cursor) : cursor :=
  set_pointer cur (Uint.incr (pointer cur)).
Definition col_incr (cur : cursor) : cursor :=
  set_col cur (Uint.incr (Col (loc cur))).
Definition line_incr (cur : cursor) : cursor :=
  set_line cur (Uint.incr (Line (loc cur))).

(** The zero value [cursor{}]. *)
Definition cursor0 : cursor := {| pointer := 0; loc := {| Line := 0; Col := 0 |} |}.

(** What a sub-lexer returns: a token or [nil], a cursor, and whether it
    matched. *)
Definition lexed : Type := (option Token * cursor * bool)%type.
Definition lexer : Type := string -> cursor -> exec lexed.

Definition no_match (ic : cursor) : exec lexed := Done (None, ic, false).

(** ** [lexNumeric] *)

(** The code after the scanning loop of [lexNumeric]. *)
Definition lexNumeric_end (source : string) (ic cur : cursor) : exec lexed :=
  if pointer cur =? pointer ic then no_match ic
  else
    value <- slice source (pointer ic) (pointer cur) ;;
    Done (Some {| Value := value; Loc := loc ic; Kind := NumericKind |}, cur, true).

(** The scanning loop of [lexNumeric]; an iteration begins at the test
    [cur.pointer < uint(len(source))], and the recursive calls take the
    cursor after the loop's [cur.pointer++]. *)
Fixpoint lexNumeric_loop (fuel : nat) (source : string) (ic cur : cursor)
    (periodFound expMarkerFound : bool) : exec lexed :=
  if pointer cur <? len source then
    match fuel with
    | O => Timeout
    | S fuel' =>
      c <- index source (pointer cur) ;;
      let cur := col_incr cur in
      let isDigit := byte_le "0" c && byte_le c "9" in
      let isPeriod := Ascii.eqb c "." in
      let isExpMarker := Ascii.eqb c "e" in
      if pointer cur =? pointer ic then
        if negb isDigit && negb isPeriod then no_match ic
        else lexNumeric_loop fuel' source ic (pointer_incr cur) isPeriod expMarkerFound
      else if isPeriod then
        if periodFound then no_match ic
        else lexNumeric_loop fuel' source ic (pointer_incr cur) periodFound expMarkerFound
      else if isExpMarker then
        if expMarkerFound then no_match ic
        else if pointer cur =? Uint.sub (len source) 1 then no_match ic
        else
          cNext <- index source (Uint.add (pointer cur) 1) ;;
          let cur := if Ascii.eqb cNext "-" || Ascii.eqb cNext "+"
                     then col_incr (pointer_incr cur) else cur in
          lexNumeric_loop fuel' source ic (pointer_incr cur) true true
      else if negb isDigit then lexNumeric_end source ic cur
      else lexNumeric_loop fuel' source ic (pointer_incr cur) periodFound expMarkerFound
    end
  else lexNumeric_end source ic cur.

Definition lexNumeric : lexer := fun source ic =>
  lexNumeric_loop (String.length source) source ic ic false false.

(** ** [lexCharacterDelimited] and [lexString] *)

Definition delimited_token (value : string) (ic : cursor) : Token :=
  {| Value := value; Loc := loc ic; Kind := StringKind |}.

Fixpoint lexCharacterDelimited_loop (fuel : nat) (source : string) (ic cur : cursor)
    (delimiter : ascii) (value : string) : exec lexed :=
  if pointer cur <? len source then
    match fuel with
    | O => Timeout
    | S fuel' =>
      c <- index source (pointer cur) ;;
      if Ascii.eqb c delimiter then
        if len source <=? Uint.add (pointer cur) 1
        then Done (Some (delimited_token value ic), cur, true)
        else
          cNext <- index source (Uint.add (pointer cur) 1) ;;
          if negb (Ascii.eqb cNext delimiter)
          then Done (Some (delimited_token value ic), cur, true)
          else
            let value := (value ++ String delimiter "")%string in
            let cur := col_incr (pointer_incr cur) in
            let value := (value ++ String c "")%string in
            let cur := col_incr cur in
            lexCharacterDelimited_loop fuel' source ic (pointer_incr cur) delimiter value
      else
        let value := (value ++ String c "")%string in
        let cur := col_incr cur in
        lexCharacterDelimited_loop fuel' source ic (pointer_incr cur) delimiter value
    end
  else no_match ic.

Definition lexCharacterDelimited (source : string) (ic : cursor) (delimiter : ascii)
    : exec lexed :=
  let cur := ic in
  rest <- slice source (pointer cur) (len source) ;;
  if len rest =? 0 then no_match ic
  else
    c <- index source (pointer cur) ;;
    if negb (Ascii.eqb c delimiter) then no_match ic
    else
      let cur := col_incr cur in
      let cur := pointer_incr cur in
      lexCharacterDelimited_loop (String.length source) source ic cur delimiter "".

Definition lexString : lexer := fun source ic =>
  lexCharacterDelimited source ic "'".

(** ** [longestMatch] *)

(** The loop over the options (label [match]) of one iteration of
    [longestMatch]: [i] is the index of the head of [options], [total] is
    [len(options)] and [n] is [cur.pointer-ic.pointer]. *)
Fixpoint longestMatch_options (value : string) (n : N) (total : nat) (i : nat)
    (options : list string) (skipList : list nat) (match_ : string)
    : exec (list nat * string) :=
  match options with
  | [] => Done (skipList, match_)
  | option :: options' =>
    if existsb (Nat.eqb i) skipList
    then longestMatch_options value n total (S i) options' skipList match_
    else if String.eqb option value then
      let skipList := (skipList ++ [i])%list in
      let match_ := if (String.length match_ <? String.length option)%nat
                    then option else match_ in
      longestMatch_options value n total (S i) options' skipList match_
    else
      prefix <- slice option 0 n ;;
      let sharePrefix := String.eqb value prefix in
      let tooLong := (total <? String.length value)%nat in
      let skipList := if tooLong || negb sharePrefix
                      then (skipList ++ [i])%list else skipList in
      longestMatch_options value n total (S i) options' skipList match_
  end.

Fixpoint longestMatch_loop (fuel : nat) (source : string) (ic cur : cursor)
    (options : list string) (value : string) (skipList : list nat) (match_ : string)
    : exec string :=
  if pointer cur <? len source then
    match fuel with
    | O => Timeout
    | S fuel' =>
      c <- index source (pointer cur) ;;
      let value := (value ++ ToLower_byte c)%string in
      let cur := pointer_incr cur in
      '(skipList, match_) <-
        longestMatch_options value (Uint.sub (pointer cur) (pointer ic))
          (List.length options) 0%nat options skipList match_ ;;
      if (List.length skipList =? List.length options)%nat then Done match_
      else longestMatch_loop fuel' source ic cur options value skipList match_
    end
  else Done match_.

Definition longestMatch (source : string) (ic : cursor) (options : list string)
    : exec string :=
  longestMatch_loop (String.length source) source ic ic options "" [] "".

(** ** [lexSymbol] and [lexKeyword] *)

Definition symbols : list string :=
  [SemiColonSymbol; AsteriskSymbol; CommaSymbol; LeftparenSymbol; RightparenSymbol].

Definition lexSymbol : lexer := fun source ic =>
  let cur := ic in
  c <- index source (pointer cur) ;;
  let cur := col_incr cur in
  let cur := pointer_incr cur in
  if Ascii.eqb c "010" then
    let cur := line_incr cur in
    let cur := set_col cur 0 in
    Done (None, cur, true)
  else if Ascii.eqb c "009" || Ascii.eqb c " " then Done (None, cur, true)
  else
    let options := symbols in
    match_ <- longestMatch source ic options ;;
    if String.eqb match_ "" then no_match ic
    else
      let cur := set_pointer cur (Uint.add (pointer ic) (len match_)) in
      let cur := set_col cur (Uint.add (Col (loc ic)) (len match_)) in
      Done (Some {| Value := match_; Loc := loc ic; Kind := SymbolKind |}, cur, true).

Definition keywords : list string :=
  [SelectKeyword; InsertKeyword; ValuesKeyword; TableKeyword; CreateKeyword;
   WhereKeyword; FromKeyword; IntoKeyword; TextKeyword; IntKeyword].

Definition lexKeyword : lexer := fun source ic =>
  let cur := ic in
  let options := keywords in
  match_ <- longestMatch source ic options ;;
  if String.eqb match_ "" then no_match ic
  else
    let cur := set_pointer cur (Uint.add (pointer ic) (len match_)) in
    let cur := set_col cur (Uint.add (Col (loc ic)) (len match_)) in
    Done (Some {| Value := match_; Loc := loc ic; Kind := KeywordKind |}, cur, true).

(** ** [lexIdentifier] *)

Definition isAlpha (c : ascii) : bool :=
  (byte_le "A" c && byte_le c "Z") || (byte_le "a" c && byte_le c "z").

Definition lexIdentifier_end (ic cur : cursor) (value : string) : exec lexed :=
  if len value =? 0 then no_match ic
  else Done (Some {| Value := ToLower value; Loc := loc ic; Kind := IdentifierKind |},
             cur, true).

Fixpoint lexIdentifier_loop (fuel : nat) (source : string) (ic cur : cursor)
    (value : string) : exec lexed :=
  if pointer cur <? len source then
    match fuel with
    | O => Timeout
    | S fuel' =>
      c <- index source (pointer cur) ;;
      let isNumeric := byte_le "0" c && byte_le c "9" in
      if isAlpha c || isNumeric || Ascii.eqb c "$" || Ascii.eqb c "_" then
        let value := (value ++ String c "")%string in
        let cur := col_incr cur in
        lexIdentifier_loop fuel' source ic (pointer_incr cur) value
      else lexIdentifier_end ic cur value
    end
  else lexIdentifier_end ic cur value.

Definition lexIdentifier : lexer := fun source ic =>
  '(token, newCursor, ok) <- lexCharacterDelimited source ic "034" ;;
  if ok then Done (token, newCursor, true)
  else
    let cur := ic in
    c <- index source (pointer cur) ;;
    if negb (isAlpha c) then no_match ic
    else
      let cur := pointer_incr cur in
      let cur := col_incr cur in
      let value := String c "" in
      lexIdentifier_loop (String.length source) source ic cur value.

(** ** [lex] *)

(** What [lex] returns: the tokens with a [nil] error, or [nil] with the
    error, whose message is kept. *)
Inductive lex_result : Type :=
| Tokens (tokens : list Token)
| LexError (message : string).

Definition lexers : list lexer :=
  [lexKeyword; lexSymbol; lexNumeric; lexString; lexIdentifier].

(** The loop over [lexers] of one iteration of [lex]: the first sub-lexer
    that matches gives the token and the new cursor. *)
Fixpoint try_lexers (ls : list lexer) (source : string) (cur : cursor)
    : exec (option (option Token * cursor)) :=
  match ls with
  | [] => Done None
  | l :: ls' =>
    '(token, newCursor, ok) <- l source cur ;;
    if ok then Done (Some (token, newCursor))
    else try_lexers ls' source cur
  end.

(** [fmt.Errorf("Unable to lex token%s, at %d:%d", hint, cur.loc.Line, cur.loc.Col)] *)
Definition lex_error (tokens : list Token) (cur : cursor) : string :=
  let hint := match List.rev tokens with
              | [] => ""
              | last :: _ => " after " ++ Value last
              end%string in
  ("Unable to lex token" ++ hint ++ ", at " ++ Uint.to_decimal (Line (loc cur))
     ++ ":" ++ Uint.to_decimal (Col (loc cur)))%string.

Definition append_token (tokens : list Token) (token : option Token) : list Token :=
  match token with
  | Some t => (tokens ++ [t])%list
  | None => tokens
  end.

Fixpoint lex_loop (fuel : nat) (source : string) (tokens : list Token) (cur : cursor)
    : exec lex_result :=
  if pointer cur <? len source then
    match fuel with
    | O => Timeout
    | S fuel' =>
      r <- try_lexers lexers source cur ;;
      match r with
      | Some (token, newCursor) =>
        lex_loop fuel' source (append_token tokens token) newCursor
      | None => Done (LexError (lex_error tokens cur))
      end
    end
  else Done (Tokens tokens).

Definition lex (source : string) : exec lex_result :=
  lex_loop (String.length source) source [] cursor0.

(** ** [Token.equals] *)

(** [==] on [TokenKind], an unsigned integer. *)
Definition TokenKind_eqb (a b : TokenKind) : bool :=
  match a, b with
  | KeywordKind, KeywordKind
  | SymbolKind, SymbolKind
  | IdentifierKind, IdentifierKind
  | StringKind, StringKind
  | NumericKind, NumericKind => true
  | _, _ => false
  end.

(** [t.equals(other)], for two tokens that are not [nil]. *)
Definition equals (t other : Token) : bool :=
  String.eqb (Value t) (Value other) && TokenKind_eqb (Kind t) (Kind other).

(** * Properties *)

(** A token and a cursor written out by their fields. *)
Definition token (value : string) (kind : TokenKind) (line col : N) : Token :=
  {| Value := value; Kind := kind; Loc := {| Line := line; Col := col |} |}.

Definition cursor_at (p line col : N) : cursor :=
  {| pointer := p; loc := {| Line := line; Col := col |} |}.

(** [My Table] between two double quotes. *)
Definition quoted_My_Table : string := String "034" ("My Table" ++ String "034" "").

(** Two lines of source text and the tokens [lex] returns for them. *)
Definition two_line_source : string := "select a," ++ String "010" "b from t".

Definition two_line_tokens : list Token :=
  [token "select" KeywordKind 0 0; token "a" IdentifierKind 0 7;
   token "," SymbolKind 0 8; token "b" IdentifierKind 1 0;
   token "from" KeywordKind 1 2; token "t" IdentifierKind 1 7].

(** ** Vocabulary of the properties *)

(** [ensures r Q]: when the call [r] returns, what it returns satisfies [Q]. *)
Definition ensures {A : Type} (r : exec A) (Q : A -> Prop) : Prop :=
  forall a, r = Done a -> Q a.

(** [returns r]: the call [r] neither panics nor runs out of fuel. *)
Definition returns {A : Type} (r : exec A) : Prop := exists a, r = Done a.

(** [unchanged ic r]: when the call [r] returns and reports no match, it
    returns no token and the cursor [ic]. *)
Definition unchanged (ic : cursor) (r : exec lexed) : Prop :=
  ensures r (fun x => snd x = false -> fst (fst x) = None /\ snd (fst x) = ic).

(** The length of a Go string is an [int]: it is below [2^63]. *)
Definition max_len : N := 2 ^ 63.

(** The order of locations: the line does not decrease, and on the same
    line the column does not decrease. *)
Definition loc_le (a b : Location) : Prop :=
  Line a <= Line b /\ (Line a = Line b -> Col a <= Col b).

(** The invariant of the cursor of [lex]: it is inside the source, and its
    column and line counters are bounded by its offset (the column by twice
    the offset, because [lexNumeric] counts the byte that ends a numeral). *)
Definition good (source : string) (cur : cursor) : Prop :=
  pointer cur <= len source
  /\ Col (loc cur) <= 2 * pointer cur
  /\ Line (loc cur) <= pointer cur.

(** What a sub-lexer that matches returns: a cursor further in the source
    that satisfies the invariant, at a location that is not before the one it
    was given, and a token (if any) stamped with the location it was given. *)
Definition advances (source : string) (ic : cursor) (x : lexed) : Prop :=
  snd x = true ->
  pointer ic < pointer (snd (fst x))
  /\ good source (snd (fst x))
  /\ loc_le (loc ic) (loc (snd (fst x)))
  /\ (forall t, fst (fst x) = Some t -> Loc t = loc ic).

(** The cursor returned by a match of [lexCharacterDelimited] is on a
    delimiter after the opening one. *)
Definition closed_at (source : string) (ic : cursor) (delimiter : ascii) (x : lexed) : Prop :=
  snd x = true ->
  pointer ic < pointer (snd (fst x))
  /\ index source (pointer (snd (fst x))) = Done delimiter.

(** [source[p:]], the empty text when [p] is past the end. *)
Fixpoint drop (n : nat) (s : string) : string :=
  match n, s with
  | O, _ => s
  | S n', String _ s' => drop n' s'
  | S _, EmptyString => EmptyString
  end.

Definition rest_after (source : string) (p : N) : string := drop (N.to_nat p) source.

(** The specification of a delimited literal, read on the text after the
    opening delimiter: a delimiter followed by a second one is an escaped
    pair and the scan goes on after it; a delimiter that is not followed by
    a second one terminates the literal; the end of the text without such a
    delimiter leaves the literal unterminated.  This definition follows the
    words of the specification, not [lexCharacterDelimited]; the two are
    compared below. *)
Fixpoint terminated_spec (delimiter : ascii) (text : string) : bool :=
  match text with
  | EmptyString => false
  | String c text' =>
    if Ascii.eqb c delimiter then
      match text' with
      | EmptyString => true
      | String c' text'' =>
        if Ascii.eqb c' delimiter then terminated_spec delimiter text'' else true
      end
    else terminated_spec delimiter text'
  end.

(** The states of the loop of [lex]: it starts with no token at the first
    byte, and an iteration in which a sub-lexer matches appends the token
    (if any) and moves to the cursor that the sub-lexer returned. *)
Inductive reaches (source : string) : list Token -> cursor -> Prop :=
| reaches_start : reaches source [] cursor0
| reaches_step tokens cur token newCursor :
    reaches source tokens cur ->
    pointer cur < len source ->
    try_lexers lexers source cur = Done (Some (token, newCursor)) ->
    reaches source (append_token tokens token) newCursor.

(** All the bytes of [s] are below 128. *)
Fixpoint ascii_only (s : string) : bool :=
  match s with
  | EmptyString => true
  | String c s' => (N_of_ascii c <? 128) && ascii_only s'
  end.

(** [lowering k v]: the buffer [v] of [longestMatch] after [k] bytes. *)
Inductive lowering : nat -> string -> Prop :=
| lowering_nil : lowering 0 ""
| lowering_snoc k v c : lowering k v -> lowering (S k) (v ++ ToLower_byte c).

(** [fits options skipList i n]: every option that is not in [skipList] has
    at least [n] bytes, and more than [n] when its index is below [i]. *)
Definition fits (options : list string) (skipList : list nat) (i : nat) (n : N) : Prop :=
  forall j o,
    nth_error options j = Some o ->
    existsb (Nat.eqb j) skipList = false ->
    if (j <? i)%nat then n < len o else n <= len o.

(** Consecutive tokens are at locations in order. *)
Definition monotone (tokens : list Token) : Prop :=
  forall i t1 t2,
    nth_error tokens i = Some t1 -> nth_error tokens (S i) = Some t2 ->
    loc_le (Loc t1) (Loc t2).

(** No token is at a location after the cursor. *)
Definition below (tokens : list Token) (cur : cursor) : Prop :=
  forall t, In t tokens -> loc_le (Loc t) (loc cur).

(** Every byte of [s] satisfies [f]. *)
Fixpoint forall_bytes (f : ascii -> bool) (s : string) : bool :=
  match s with
  | EmptyString => true
  | String c s' => f c && forall_bytes f s'
  end.

(** The number of bytes of [s] equal to [c]. *)
Fixpoint count_byte (c : ascii) (s : string) : nat :=
  match s with
  | EmptyString => 0
  | String a s' => (if Ascii.eqb a c then 1 else 0) + count_byte c s'
  end.

(** The buffer [longestMatch] builds from the text [s]: the case folding of
    each byte, one after the other. *)
Fixpoint lowered (s : string) : string :=
  match s with
  | EmptyString => EmptyString
  | String c s' => ToLower_byte c ++ lowered s'
  end.

(** The classes of bytes the sub-lexers tell apart. *)
Definition isDigit (c : ascii) : bool := byte_le "0" c && byte_le c "9".

Definition is_blank (c : ascii) : bool :=
  Ascii.eqb c "010" || Ascii.eqb c "009" || Ascii.eqb c " ".

Definition is_symbol_byte (c : ascii) : bool :=
  existsb (String.eqb (String c "")) symbols.

Definition is_ident_byte (c : ascii) : bool :=
  isAlpha c || isDigit c || Ascii.eqb c "$" || Ascii.eqb c "_".

Definition is_numeral_byte (c : ascii) : bool :=
  isDigit c || Ascii.eqb c "." || Ascii.eqb c "e" || Ascii.eqb c "+" || Ascii.eqb c "-".

Definition is_quote (c : ascii) : bool := Ascii.eqb c "'" || Ascii.eqb c "034".

(** [c] is, in either case, the first byte of a keyword of [lexKeyword]. *)
Definition keyword_initial (c : ascii) : bool :=
  existsb (fun k => match k with
                    | String a _ => Ascii.eqb (lower_ascii c) a
                    | EmptyString => false
                    end) keywords.

(** What [lexSymbol] returns at a cursor [ic] on the byte [c]. *)
Definition lexSymbol_at (ic : cursor) (c : ascii) : lexed :=
  if Ascii.eqb c "010" then
    (None, cursor_at (pointer ic + 1) (Uint.incr (Line (loc ic))) 0, true)
  else if Ascii.eqb c "009" || Ascii.eqb c " " then
    (None, cursor_at (pointer ic + 1) (Line (loc ic)) (Uint.incr (Col (loc ic))), true)
  else if is_symbol_byte c then
    (Some {| Value := String c ""; Kind := SymbolKind; Loc := loc ic |},
     cursor_at (pointer ic + 1) (Line (loc ic)) (Uint.add (Col (loc ic)) 1), true)
  else (None, ic, false).

(** The value and the kind of a token, and those of the Symbol token of the
    byte [c]. *)
Definition kinded (t : Token) : string * TokenKind := (Value t, Kind t).

Definition symbol_of (c : ascii) : string * TokenKind := (String c "", SymbolKind).

(** What a match of [lexCharacterDelimited] returns: a String token whose
    value is the source text between the delimiter at the first cursor and
    the delimiter at the returned cursor, which no delimiter follows. *)
Definition delimited_match (source : string) (ic : cursor) (delimiter : ascii)
    (x : lexed) : Prop :=
  snd x = true ->
  exists value,
    fst (fst x) = Some {| Value := value; Kind := StringKind; Loc := loc ic |}
    /\ pointer ic < pointer (snd (fst x))
    /\ slice source (pointer ic + 1) (pointer (snd (fst x))) = Done value
    /\ index source (pointer ic) = Done delimiter
    /\ index source (pointer (snd (fst x))) = Done delimiter
    /\ index source (pointer (snd (fst x)) + 1) <> Done delimiter.

(** A token a parser can use: it is not of kind String and its value is not
    empty. *)
Definition plain (t : Token) : Prop := Kind t <> StringKind /\ Value t <> "".

(** A match either gives a plain token (or none), or leaves the cursor on a
    quote. *)
Definition plain_or_quote (source : string) (x : lexed) : Prop :=
  snd x = true ->
  (forall t, fst (fst x) = Some t -> plain t)
  \/ (exists d, is_quote d = true /\ index source (pointer (snd (fst x))) = Done d).

(** What [lexIdentifier] returns on a bare identifier: the longest run of
    identifier bytes at the cursor, in lower case. *)
Definition identifier_match (source : string) (ic : cursor) (x : lexed) : Prop :=
  exists value cur,
    x = (Some {| Value := ToLower value; Kind := IdentifierKind; Loc := loc ic |},
         cur, true)
    /\ slice source (pointer ic) (pointer cur) = Done value
    /\ forall_bytes is_ident_byte value = true
    /\ pointer ic < pointer cur
    /\ (forall c, index source (pointer cur) = Done c -> is_ident_byte c = false).

(** What a match of [lexNumeric] returns: a Numeric token whose value is
    the source text between the two cursors, with the shape of a numeral. *)
Definition numeral_match (source : string) (ic : cursor) (x : lexed) : Prop :=
  snd x = true ->
  exists value c0,
    fst (fst x) = Some {| Value := value; Kind := NumericKind; Loc := loc ic |}
    /\ slice source (pointer ic) (pointer (snd (fst x))) = Done value
    /\ pointer ic < pointer (snd (fst x))
    /\ forall_bytes is_numeral_byte value = true
    /\ (count_byte "e" value <= 1)%nat
    /\ index source (pointer ic) = Done c0
    /\ isDigit c0 || Ascii.eqb c0 "." = true.

(** The facts the scanning loop of [lexNumeric] keeps about the text [v]
    between the first cursor and the offset [p] it has reached. *)
Definition numeral_so_far (source : string) (ic : cursor) (p : N) (expMarkerFound : bool)
    (v : string) : Prop :=
  slice source (pointer ic) p = Done v
  /\ forall_bytes is_numeral_byte v = true
  /\ (count_byte "e" v <= 1)%nat
  /\ (expMarkerFound = false -> count_byte "e" v = 0%nat)
  /\ (pointer ic < p ->
      exists c0, index source (pointer ic) = Done c0
                 /\ isDigit c0 || Ascii.eqb c0 "." = true).

(** [folded source ic o]: the option [o] is the case folding of the source
    text at the cursor [ic]. *)
Definition folded (source : string) (ic : cursor) (o : string) : Prop :=
  exists t, slice source (pointer ic) (pointer ic + len t) = Done t /\ lowered t = o.

(** [alive_ok value n o]: the buffer [value] is the first [n] bytes of the
    option [o], which has more. *)
Definition alive_ok (value : string) (n : N) (o : string) : Prop :=
  slice o 0 n = Done value /\ n < len o.

(** The state of [longestMatch] while the pass for the byte number [n+1]
    is at the option of index [i]: [value] is the buffer before that byte
    and [value'] the buffer with it. *)
Definition match_inv (source : string) (ic : cursor) (options : list string)
    (value : string) (n : N) (value' : string) (i : nat)
    (skipList : list nat) (match_ : string) : Prop :=
  (forall j o, nth_error options j = Some o ->
               existsb (Nat.eqb j) skipList = false ->
               if (j <? i)%nat then alive_ok value' (n + 1) o else alive_ok value n o)
  /\ (forall j o, nth_error options j = Some o ->
                  existsb (Nat.eqb j) skipList = true ->
                  folded source ic o ->
                  (String.length o <= String.length match_)%nat)
  /\ (match_ = "" \/ (In match_ options /\ folded source ic match_))
  /\ NoDup skipList
  /\ (forall j, In j skipList -> (j < List.length options)%nat).

(** What [longestMatch] returns: an option that is the folding of the source
    text at the cursor and is not shorter than any other such option, or the
    empty string. *)
Definition longest_folded (source : string) (ic : cursor) (options : list string)
    (m : string) : Prop :=
  (m = "" \/ (In m options /\ folded source ic m))
  /\ (forall o, In o options -> folded source ic o ->
                (String.length o <= String.length m)%nat).

(** [spells source ic k]: the source text at the cursor [ic] is the word [k]
    in upper or lower case letters. *)
Definition spells (source : string) (ic : cursor) (k : string) : Prop :=
  exists text,
    slice source (pointer ic) (pointer ic + len k) = Done text /\ ToLower text = k.

(** What [lexKeyword] returns at the cursor [ic] when the match is [m]. *)
Definition lexKeyword_on (ic : cursor) (m : string) : lexed :=
  if String.eqb m "" then (None, ic, false)
  else (Some {| Value := m; Kind := KeywordKind; Loc := loc ic |},
        cursor_at (pointer ic + len m) (Line (loc ic)) (Uint.add (Col (loc ic)) (len m)),
        true).

(** [c] is neither a single nor a double quote. *)
Definition not_quote (c : ascii) : bool := negb (is_quote c).

(** A match either leaves the cursor on a quote or has passed over no
    quote. *)
Definition no_quote_passed (source : string) (ic : cursor) (x : lexed) : Prop :=
  snd x = true ->
  (exists d, is_quote d = true /\ index source (pointer (snd (fst x))) = Done d)
  \/ (forall p c, pointer ic <= p < pointer (snd (fst x)) ->
                  index source p = Done c -> is_quote c = false).

(** A source of symbols and blanks on two lines. *)
Definition symbols_source : string := "( * ) ;" ++ String "010" ",".

(** A match stays on its line and moves the column as far as the offset,
    and by [extra] more. *)
Definition tracks (ic : cursor) (extra : N) (x : lexed) : Prop :=
  snd x = true ->
  Line (loc (snd (fst x))) = Line (loc ic)
  /\ Col (loc (snd (fst x)))
     = Col (loc ic) + (pointer (snd (fst x)) - pointer ic) + extra.

(** What [lexNumeric] adds to the column beyond the offset: one when it
    stops at a byte of the source, nothing when it stops at the end. *)
Definition numeral_extra (source : string) (x : lexed) : N :=
  if pointer (snd (fst x)) <? len source then 1 else 0.

(** ** Evaluations of the lexer *)

(** C1: on ["1.2.3"] the numeric sub-lexer does not reject the second
    decimal point: it matches, with one Numeric token that spans both
    points, and [lex] returns exactly that token.  The flag [periodFound] is
    tested at a point after the first byte and never set there. *)
Theorem lexNumeric_second_period_accepted :
  lexNumeric "1.2.3" cursor0
    = Done (Some (token "1.2.3" NumericKind 0 0), cursor_at 5 0 5, true)
  /\ lex "1.2.3" = Done (Tokens [token "1.2.3" NumericKind 0 0]).
Proof. split; vm_compute; reflexivity. Qed.

(** C2: on ['ab''c'] the delimited-literal sub-lexer keeps both bytes of the
    doubled delimiter: the value of its String token is [ab''c], and the
    cursor it returns is on the closing delimiter, where [lex] then fails. *)
Theorem lexString_doubled_delimiter_kept :
  lexString "'ab''c'" cursor0
    = Done (Some (token "ab''c" StringKind 0 0), cursor_at 6 0 6, true)
  /\ lex "'ab''c'" = Done (LexError "Unable to lex token after ab''c, at 0:6").
Proof. split; vm_compute; reflexivity. Qed.

(** C3: on the double-quoted [My Table] the identifier sub-lexer returns
    the token of the delimited-literal sub-lexer as it is: kind String, value
    [My Table] in its original case; the cursor is on the closing quote,
    where [lex] then fails. *)
Theorem lexIdentifier_quoted_is_String_token :
  lexIdentifier quoted_My_Table cursor0
    = Done (Some (token "My Table" StringKind 0 0), cursor_at 9 0 9, true)
  /\ lex quoted_My_Table = Done (LexError "Unable to lex token after My Table, at 0:9").
Proof. split; vm_compute; reflexivity. Qed.

(** C4: [as] is a declared keyword constant that is not in the list of
    [lexKeyword]: on ["as"] the keyword sub-lexer does not match and [lex]
    returns one Identifier token. *)
Theorem lex_as_is_Identifier :
  ~ In AsKeyword keywords
  /\ lexKeyword "as" cursor0 = Done (None, cursor0, false)
  /\ lex "as" = Done (Tokens [token "as" IdentifierKind 0 0]).
Proof.
  split; [|split; vm_compute; reflexivity].
  unfold keywords, AsKeyword; simpl; intros H.
  repeat (destruct H as [H|H]; [discriminate H|]); exact H.
Qed.

(** C5: with the two options [int] and [into] and the source ["into"],
    [longestMatch] returns [int]: once three bytes are read the option
    [into] is dropped, because the length of the buffer is compared with the
    number of options.  With the ten keywords it returns [into]. *)
Theorem longestMatch_int_into_two_options :
  longestMatch "into" cursor0 ["int"; "into"] = Done "int"
  /\ longestMatch "into" cursor0 keywords = Done "into".
Proof. split; vm_compute; reflexivity. Qed.

(** C6: ["select"], ["Select"] and ["SELECT"] each lex to exactly one token,
    of kind Keyword and value [select]. *)
Theorem lex_select_any_case :
  lex "select" = Done (Tokens [token "select" KeywordKind 0 0])
  /\ lex "Select" = Done (Tokens [token "select" KeywordKind 0 0])
  /\ lex "SELECT" = Done (Tokens [token "select" KeywordKind 0 0]).
Proof. repeat split; vm_compute; reflexivity. Qed.

(** ** Reasoning along the control flow *)

Lemma ensures_Done {A} (a : A) (Q : A -> Prop) : Q a -> ensures (Done a) Q.
Proof. intros H b Hb; inversion Hb; subst; exact H. Qed.

Lemma ensures_Panic {A} (Q : A -> Prop) : ensures Panic Q.
Proof. intros a H; discriminate H. Qed.

Lemma ensures_Timeout {A} (Q : A -> Prop) : ensures Timeout Q.
Proof. intros a H; discriminate H. Qed.

Lemma ensures_bind {A B} (m : exec A) (k : A -> exec B) (Q : B -> Prop) :
  (forall a, m = Done a -> ensures (k a) Q) -> ensures (bind m k) Q.
Proof.
  destruct m; simpl; intros H.
  - apply H; reflexivity.
  - apply ensures_Panic.
  - apply ensures_Timeout.
Qed.

Lemma ensures_if {A} (b : bool) (r1 r2 : exec A) (Q : A -> Prop) :
  (b = true -> ensures r1 Q) -> (b = false -> ensures r2 Q) ->
  ensures (if b then r1 else r2) Q.
Proof. destruct b; auto. Qed.

Lemma ensures_weaken {A} (r : exec A) (P Q : A -> Prop) :
  ensures r P -> (forall a, P a -> Q a) -> ensures r Q.
Proof. intros H HPQ a Ha; apply HPQ, H, Ha. Qed.

(** ** A sub-lexer that does not match leaves the cursor alone *)

Lemma unchanged_no_match ic : unchanged ic (no_match ic).
Proof. apply ensures_Done; simpl; auto. Qed.

Lemma unchanged_matched ic tok cur : unchanged ic (Done (tok, cur, true)).
Proof. apply ensures_Done; simpl; discriminate. Qed.

(** Splits a goal [ensures r Q] along the control flow of [r]. *)
Ltac ensures_step :=
  match goal with
  | |- ensures Panic _ => apply ensures_Panic
  | |- ensures Timeout _ => apply ensures_Timeout
  | |- ensures (bind _ _) _ => apply ensures_bind; intros ? ?
  | |- ensures (if _ then _ else _) _ => apply ensures_if; intros ?
  | |- ensures (let _ := _ in _) _ => cbv zeta
  | |- ensures (match ?x with (_, _) => _ end) _ => destruct x
  end.

Ltac unchanged_cases :=
  unfold unchanged;
  repeat first
    [ ensures_step
    | match goal with
      | |- ensures (no_match _) _ => apply unchanged_no_match
      | |- ensures (Done (_, _, true)) _ => apply unchanged_matched
      end ].

Lemma lexNumeric_end_unchanged source ic cur :
  unchanged ic (lexNumeric_end source ic cur).
Proof. unfold lexNumeric_end; unchanged_cases. Qed.

Lemma lexNumeric_loop_unchanged fuel source ic :
  forall cur periodFound expMarkerFound,
    unchanged ic (lexNumeric_loop fuel source ic cur periodFound expMarkerFound).
Proof.
  induction fuel as [|fuel IH]; intros cur periodFound expMarkerFound;
    cbn [lexNumeric_loop];
    unchanged_cases; first [apply IH | apply lexNumeric_end_unchanged].
Qed.

Lemma lexNumeric_unchanged source ic : unchanged ic (lexNumeric source ic).
Proof. apply lexNumeric_loop_unchanged. Qed.

Lemma lexCharacterDelimited_loop_unchanged fuel source ic delimiter :
  forall cur value,
    unchanged ic (lexCharacterDelimited_loop fuel source ic cur delimiter value).
Proof.
  induction fuel as [|fuel IH]; intros cur value;
    cbn [lexCharacterDelimited_loop]; unchanged_cases; apply IH.
Qed.

Lemma lexCharacterDelimited_unchanged source ic delimiter :
  unchanged ic (lexCharacterDelimited source ic delimiter).
Proof.
  unfold lexCharacterDelimited; unchanged_cases.
  apply lexCharacterDelimited_loop_unchanged.
Qed.

Lemma lexString_unchanged source ic : unchanged ic (lexString source ic).
Proof. apply lexCharacterDelimited_unchanged. Qed.

Lemma lexSymbol_unchanged source ic : unchanged ic (lexSymbol source ic).
Proof. unfold lexSymbol; unchanged_cases. Qed.

Lemma lexKeyword_unchanged source ic : unchanged ic (lexKeyword source ic).
Proof. unfold lexKeyword; unchanged_cases. Qed.

Lemma lexIdentifier_end_unchanged ic cur value :
  unchanged ic (lexIdentifier_end ic cur value).
Proof. unfold lexIdentifier_end; unchanged_cases. Qed.

Lemma lexIdentifier_loop_unchanged fuel source ic :
  forall cur value, unchanged ic (lexIdentifier_loop fuel source ic cur value).
Proof.
  induction fuel as [|fuel IH]; intros cur value; cbn [lexIdentifier_loop];
    unchanged_cases; first [apply IH | apply lexIdentifier_end_unchanged].
Qed.

Lemma lexIdentifier_unchanged source ic : unchanged ic (lexIdentifier source ic).
Proof.
  unfold lexIdentifier.
  apply ensures_bind; intros [[token newCursor] ok] Hd.
  unchanged_cases; apply lexIdentifier_loop_unchanged.
Qed.

(** C8: each of the five sub-lexers, when it reports no match, returns no
    token and the cursor it was given. *)
Theorem sublexer_no_match_cursor_unchanged :
  forall (l : lexer) (source : string) (ic : cursor) (tok : option Token) (cur : cursor),
    In l lexers ->
    l source ic = Done (tok, cur, false) ->
    tok = None /\ cur = ic.
Proof.
  intros l source ic tok cur Hin H.
  unfold lexers in Hin; simpl in Hin.
  destruct Hin as [<-|[<-|[<-|[<-|[<-|[]]]]]].
  - exact (lexKeyword_unchanged source ic _ H eq_refl).
  - exact (lexSymbol_unchanged source ic _ H eq_refl).
  - exact (lexNumeric_unchanged source ic _ H eq_refl).
  - exact (lexString_unchanged source ic _ H eq_refl).
  - exact (lexIdentifier_unchanged source ic _ H eq_refl).
Qed.

Lemma sublexer_no_match_cursor_unchanged_witness :
  In lexNumeric lexers
  /\ lexNumeric "x 1e5e3" (cursor_at 2 0 2) = Done (None, cursor_at 2 0 2, false)
  /\ ((None : option Token) = None /\ cursor_at 2 0 2 = cursor_at 2 0 2).
Proof.
  assert (Hin : In lexNumeric lexers) by (right; right; left; reflexivity).
  assert (Hrun : lexNumeric "x 1e5e3" (cursor_at 2 0 2)
                 = Done (None, cursor_at 2 0 2, false))
    by (vm_compute; reflexivity).
  split; [exact Hin|split; [exact Hrun|]].
  exact (sublexer_no_match_cursor_unchanged _ _ _ _ _ Hin Hrun).
Defined.

(** The structural violations that the sub-lexers detect: a second point
    after a leading point, a second exponent marker, an exponent marker at
    the end of the source, a literal that is not terminated. *)
Example structural_violations_no_match :
  lexNumeric ".1.2" cursor0 = Done (None, cursor0, false)
  /\ lexNumeric "1e2e3" cursor0 = Done (None, cursor0, false)
  /\ lexNumeric "1e" cursor0 = Done (None, cursor0, false)
  /\ lexString "'abc" cursor0 = Done (None, cursor0, false).
Proof. repeat split; vm_compute; reflexivity. Qed.

(** ** Arithmetic of cursors *)

Lemma wrap_small n : n < 18446744073709551616 -> Uint.wrap n = n.
Proof. intros H; unfold Uint.wrap; apply N.mod_small; exact H. Qed.

Lemma add_small a b : a + b < 18446744073709551616 -> Uint.add a b = a + b.
Proof. intros H; unfold Uint.add; apply wrap_small, H. Qed.

Lemma incr_small a : a + 1 < 18446744073709551616 -> Uint.incr a = a + 1.
Proof. apply add_small. Qed.

Lemma sub_small a b : b <= a -> a < 18446744073709551616 -> Uint.sub a b = a - b.
Proof.
  intros Hba Ha; unfold Uint.sub.
  rewrite (wrap_small b) by lia.
  change Uint.modulus with 18446744073709551616.
  replace (a + 18446744073709551616 - b) with (a - b + 1 * 18446744073709551616) by lia.
  unfold Uint.wrap; change Uint.modulus with 18446744073709551616.
  rewrite N.Div0.mod_add; apply N.mod_small; lia.
Qed.

Lemma get_Some_lt s : forall n c, String.get n s = Some c -> (n < String.length s)%nat.
Proof.
  induction s as [|a s IH]; intros [|n] c H; simpl in *; try discriminate; try lia.
  apply IH in H; lia.
Qed.

Lemma index_Done_lt source p c : index source p = Done c -> p < len source.
Proof.
  unfold index, len; destruct (String.get (N.to_nat p) source) eqn:E; [|discriminate].
  intros _; apply get_Some_lt in E; lia.
Qed.

Ltac bools :=
  repeat match goal with
  | H : (_ <? _) = true |- _ => apply N.ltb_lt in H
  | H : (_ <? _) = false |- _ => apply N.ltb_ge in H
  | H : (_ <=? _) = true |- _ => apply N.leb_le in H
  | H : (_ <=? _) = false |- _ => apply N.leb_gt in H
  | H : (_ =? _) = true |- _ => apply N.eqb_eq in H
  | H : (_ =? _) = false |- _ => apply N.eqb_neq in H
  | H : index _ _ = Done _ |- _ => apply index_Done_lt in H
  end.

Ltac cursors :=
  unfold pointer_incr, col_incr, line_incr, set_pointer, set_col, set_line in *;
  cbn [pointer loc Line Col fst snd] in *.

Ltac unwrap :=
  repeat match goal with
  | |- context [Uint.incr ?a] => rewrite (incr_small a) by lia
  | |- context [Uint.add ?a ?b] => rewrite (add_small a b) by lia
  | |- context [Uint.sub ?a ?b] => rewrite (sub_small a b) by lia
  | H : context [Uint.incr ?a] |- _ => rewrite (incr_small a) in H by lia
  | H : context [Uint.add ?a ?b] |- _ => rewrite (add_small a b) in H by lia
  | H : context [Uint.sub ?a ?b] |- _ => rewrite (sub_small a b) in H by lia
  end.

Lemma lexNumeric_end_advances source ic cur :
  len source < max_len ->
  good source ic ->
  pointer ic <= pointer cur <= len source ->
  Line (loc cur) = Line (loc ic) ->
  Col (loc ic) <= Col (loc cur) <= Col (loc ic) + (pointer cur - pointer ic) + 1 ->
  ensures (lexNumeric_end source ic cur) (advances source ic).
Proof.
  unfold max_len, good, lexNumeric_end; intros Hlen Hic Hp Hl Hc.
  repeat ensures_step.
  - apply ensures_Done; intros Hok; discriminate Hok.
  - bools. apply ensures_Done; intros _; unfold loc_le; cbn.
    repeat split; try lia. intros t Ht; inversion Ht; reflexivity.
Qed.

Lemma lexNumeric_loop_advances fuel source ic :
  len source < max_len ->
  good source ic ->
  forall cur periodFound expMarkerFound,
    pointer ic <= pointer cur <= len source ->
    Line (loc cur) = Line (loc ic) ->
    Col (loc ic) <= Col (loc cur) <= Col (loc ic) + (pointer cur - pointer ic) ->
    ensures (lexNumeric_loop fuel source ic cur periodFound expMarkerFound)
            (advances source ic).
Proof.
  unfold max_len; intros Hlen Hic.
  induction fuel as [|fuel IH]; intros cur periodFound expMarkerFound Hp Hl Hc;
    cbn [lexNumeric_loop]; repeat ensures_step;
    try (apply ensures_Done; intros Hok; discriminate Hok);
    try match goal with
        | |- context [if ?b then col_incr _ else _] => destruct b
        end;
    unfold good in Hic; bools;
    first [apply IH | apply lexNumeric_end_advances; [assumption | assumption | ..]];
    cursors; bools; unwrap; lia.
Qed.

Lemma good_refl_bounds source ic :
  good source ic -> pointer ic <= pointer ic <= len source.
Proof. unfold good; lia. Qed.

Lemma lexNumeric_advances source ic :
  len source < max_len -> good source ic ->
  ensures (lexNumeric source ic) (advances source ic).
Proof.
  intros Hlen Hic; apply lexNumeric_loop_advances; auto using good_refl_bounds; lia.
Qed.

Ltac no_match_case :=
  try (apply ensures_Done; intros Hok; discriminate Hok).

Lemma matched_advances source ic (t : Token) cur :
  good source ic ->
  pointer ic < pointer cur <= len source ->
  Line (loc cur) = Line (loc ic) ->
  Col (loc ic) <= Col (loc cur) <= Col (loc ic) + (pointer cur - pointer ic) ->
  Loc t = loc ic ->
  ensures (Done (Some t, cur, true)) (advances source ic).
Proof.
  unfold good; intros Hic Hp Hl Hc Ht.
  apply ensures_Done; intros _; unfold good, loc_le; cbn [fst snd].
  repeat split; try lia. intros t' Ht'; inversion Ht'; subst; exact Ht.
Qed.

Lemma lexCharacterDelimited_loop_advances fuel source ic delimiter :
  len source < max_len ->
  good source ic ->
  forall cur value,
    pointer ic < pointer cur <= len source ->
    Line (loc cur) = Line (loc ic) ->
    Col (loc ic) <= Col (loc cur) <= Col (loc ic) + (pointer cur - pointer ic) ->
    ensures (lexCharacterDelimited_loop fuel source ic cur delimiter value)
            (advances source ic).
Proof.
  unfold max_len; intros Hlen Hic.
  induction fuel as [|fuel IH]; intros cur value Hp Hl Hc;
    cbn [lexCharacterDelimited_loop]; repeat ensures_step; no_match_case;
    try (apply matched_advances; try assumption; reflexivity);
    unfold good in Hic; bools; apply IH; cursors; unwrap; lia.
Qed.

Lemma lexCharacterDelimited_advances source ic delimiter :
  len source < max_len -> good source ic ->
  ensures (lexCharacterDelimited source ic delimiter) (advances source ic).
Proof.
  unfold max_len; intros Hlen Hic; unfold lexCharacterDelimited.
  repeat ensures_step; no_match_case.
  unfold good in Hic; bools.
  apply lexCharacterDelimited_loop_advances; auto; cursors; unwrap; lia.
Qed.

Lemma lexString_advances source ic :
  len source < max_len -> good source ic ->
  ensures (lexString source ic) (advances source ic).
Proof. apply lexCharacterDelimited_advances. Qed.

Lemma lexIdentifier_end_advances source ic cur value :
  good source ic ->
  pointer ic < pointer cur <= len source ->
  Line (loc cur) = Line (loc ic) ->
  Col (loc ic) <= Col (loc cur) <= Col (loc ic) + (pointer cur - pointer ic) ->
  ensures (lexIdentifier_end ic cur value) (advances source ic).
Proof.
  intros Hic Hp Hl Hc; unfold lexIdentifier_end.
  repeat ensures_step; no_match_case.
  apply matched_advances; try assumption; reflexivity.
Qed.

Lemma lexIdentifier_loop_advances fuel source ic :
  len source < max_len ->
  good source ic ->
  forall cur value,
    pointer ic < pointer cur <= len source ->
    Line (loc cur) = Line (loc ic) ->
    Col (loc ic) <= Col (loc cur) <= Col (loc ic) + (pointer cur - pointer ic) ->
    ensures (lexIdentifier_loop fuel source ic cur value) (advances source ic).
Proof.
  unfold max_len; intros Hlen Hic.
  induction fuel as [|fuel IH]; intros cur value Hp Hl Hc;
    cbn [lexIdentifier_loop]; repeat ensures_step;
    try (apply lexIdentifier_end_advances; assumption);
    unfold good in Hic; bools; apply IH; cursors; unwrap; lia.
Qed.

Lemma lexIdentifier_advances source ic :
  len source < max_len -> good source ic ->
  ensures (lexIdentifier source ic) (advances source ic).
Proof.
  intros Hlen Hic; unfold lexIdentifier.
  apply ensures_bind; intros [[token newCursor] ok] Hd.
  apply ensures_if; intros Hok; subst.
  - intros x Hx; inversion Hx; subst.
    exact (lexCharacterDelimited_advances source ic _ Hlen Hic _ Hd).
  - unfold max_len in Hlen; repeat ensures_step; no_match_case.
    pose proof Hic as Hic'; unfold good in Hic'; bools.
    apply lexIdentifier_loop_advances; auto; cursors; unwrap; lia.
Qed.

(** ** The match of [longestMatch] lies inside the source *)

Lemma length_append s1 s2 :
  String.length (s1 ++ s2) = (String.length s1 + String.length s2)%nat.
Proof. induction s1 as [|c s1 IH]; simpl; congruence. Qed.

Lemma ascii_only_append s1 s2 :
  ascii_only (s1 ++ s2) = ascii_only s1 && ascii_only s2.
Proof.
  induction s1 as [|c s1 IH]; simpl; [reflexivity|].
  rewrite IH; apply andb_assoc.
Qed.

Lemma ToLower_byte_ascii_only c :
  ascii_only (ToLower_byte c) = true -> String.length (ToLower_byte c) = 1%nat.
Proof.
  destruct c as [[] [] [] [] [] [] [] []]; vm_compute; intros H;
    first [reflexivity | discriminate H].
Qed.

Lemma lowering_ascii_length k v :
  lowering k v -> ascii_only v = true -> String.length v = k.
Proof.
  induction 1 as [|k v c Hv IH]; intros Ha; [reflexivity|].
  rewrite ascii_only_append in Ha; apply andb_prop in Ha as [Ha1 Ha2].
  rewrite length_append, (IH Ha1), (ToLower_byte_ascii_only c Ha2); lia.
Qed.

Lemma longestMatch_options_match value n total :
  forall options i skipList match_,
    ensures (longestMatch_options value n total i options skipList match_)
            (fun r => snd r = match_ \/ (snd r = value /\ In value options)).
Proof.
  induction options as [|option options IH]; intros i skipList match_;
    cbn [longestMatch_options].
  - apply ensures_Done; left; reflexivity.
  - repeat ensures_step;
      (eapply ensures_weaken; [apply IH|]); cbv beta; intros r [Hr|[Hr Hin]];
      try (right; split; [exact Hr|right; exact Hin]);
      try (left; exact Hr).
    apply String.eqb_eq in H0; subst value.
    destruct (String.length match_ <? String.length option)%nat; auto.
    right; split; [exact Hr|left; reflexivity].
Qed.

Lemma longestMatch_loop_bound fuel source ic options :
  len source < max_len ->
  forallb ascii_only options = true ->
  forall cur value skipList match_ k,
    lowering k value ->
    pointer cur = pointer ic + N.of_nat k ->
    pointer cur <= len source ->
    pointer ic + len match_ <= len source ->
    ensures (longestMatch_loop fuel source ic cur options value skipList match_)
            (fun m => pointer ic + len m <= len source).
Proof.
  unfold max_len; intros Hlen Hopts.
  induction fuel as [|fuel IH]; intros cur value skipList match_ k Hv Hk Hp Hm;
    cbn [longestMatch_loop]; repeat ensures_step;
    try (apply ensures_Done; assumption).
  all: match goal with
       | Ho : longestMatch_options _ _ _ _ _ _ _ = Done (_, ?s) |- _ =>
         assert (Hs : pointer ic + len s <= len source);
           [apply longestMatch_options_match in Ho; cbn [snd] in Ho|]
       end.
  1, 3: match goal with Ho : _ \/ _ |- _ => destruct Ho as [->|[-> Hin]] end;
    [assumption|].
  1, 2: rewrite forallb_forall in Hopts; apply Hopts in Hin;
    pose proof (lowering_ascii_length _ _ (lowering_snoc _ _ a Hv) Hin) as Hl;
    unfold len in *; rewrite Hl; bools; lia.
  - apply ensures_Done; exact Hs.
  - bools; apply (IH _ _ _ _ (S k)); cursors; unwrap;
      [apply lowering_snoc; exact Hv|lia|lia|exact Hs].
Qed.

Lemma longestMatch_bound source ic options :
  len source < max_len ->
  forallb ascii_only options = true ->
  pointer ic <= len source ->
  ensures (longestMatch source ic options)
          (fun m => pointer ic + len m <= len source).
Proof.
  intros Hlen Hopts Hp; unfold longestMatch.
  apply (longestMatch_loop_bound _ _ _ _ Hlen Hopts _ _ _ _ 0%nat);
    [constructor|cbn; lia|assumption|cbn; lia].
Qed.

Lemma len_nonempty m : (m =? "")%string = false -> 1 <= len m.
Proof.
  intros H; apply String.eqb_neq in H; unfold len.
  destruct m; [congruence|simpl; lia].
Qed.

(** What [lexKeyword] and [lexSymbol] do with the result of [longestMatch]. *)
Lemma match_token_advances source ic kind m :
  len source < max_len ->
  good source ic ->
  pointer ic + len m <= len source ->
  (m =? "")%string = false ->
  ensures
    (Done (Some {| Value := m; Loc := loc ic; Kind := kind |},
           set_col (set_pointer (pointer_incr (col_incr ic))
                                (Uint.add (pointer ic) (len m)))
                   (Uint.add (Col (loc ic)) (len m)),
           true))
    (advances source ic).
Proof.
  unfold max_len, good; intros Hlen Hic Hm Hne; apply len_nonempty in Hne.
  apply ensures_Done; intros _; unfold good, loc_le; cursors; unwrap.
  repeat split; try lia. intros t Ht; inversion Ht; reflexivity.
Qed.

Lemma lexKeyword_advances source ic :
  len source < max_len -> good source ic ->
  ensures (lexKeyword source ic) (advances source ic).
Proof.
  intros Hlen Hic; unfold lexKeyword.
  apply ensures_bind; intros m Hm.
  apply (longestMatch_bound source ic keywords Hlen eq_refl (proj1 Hic)) in Hm.
  repeat ensures_step; no_match_case.
  apply (match_token_advances source ic KeywordKind m); assumption.
Qed.

Lemma lexSymbol_advances source ic :
  len source < max_len -> good source ic ->
  ensures (lexSymbol source ic) (advances source ic).
Proof.
  intros Hlen Hic; unfold lexSymbol.
  apply ensures_bind; intros c Hc.
  repeat (apply ensures_if; intros ?).
  3: { apply ensures_bind; intros m Hm.
       apply (longestMatch_bound source ic symbols Hlen eq_refl (proj1 Hic)) in Hm.
       repeat ensures_step; no_match_case.
       apply (match_token_advances source ic SymbolKind m); assumption. }
  all: unfold max_len, good in *; bools;
    apply ensures_Done; intros _; unfold good, loc_le; cursors; unwrap;
    repeat split; try lia; intros t Ht; discriminate Ht.
Qed.

(** ** The locations of the tokens of [lex] *)

Lemma loc_le_refl a : loc_le a a.
Proof. unfold loc_le; lia. Qed.

Lemma loc_le_trans a b c : loc_le a b -> loc_le b c -> loc_le a c.
Proof. unfold loc_le; lia. Qed.

Lemma monotone_append tokens cur t :
  monotone tokens -> below tokens cur -> Loc t = loc cur ->
  monotone (tokens ++ [t])%list.
Proof.
  intros Hm Hb Ht i t1 t2 H1 H2.
  destruct (Nat.lt_ge_cases (S i) (List.length tokens)) as [Hlt|Hge].
  - rewrite nth_error_app1 in H1, H2 by lia; eauto.
  - rewrite nth_error_app2 in H2 by lia.
    destruct (S i - List.length tokens)%nat as [|[|j]] eqn:E; simpl in H2;
      try discriminate H2.
    inversion H2; subst t2; clear H2.
    rewrite nth_error_app1 in H1 by lia.
    rewrite Ht; apply Hb; eapply nth_error_In; exact H1.
Qed.

Lemma below_append tokens cur newCursor token :
  below tokens cur -> loc_le (loc cur) (loc newCursor) ->
  (forall t, token = Some t -> Loc t = loc cur) ->
  below (append_token tokens token) newCursor.
Proof.
  intros Hb Hle Ht t Hin; destruct token as [t'|]; simpl in Hin.
  - apply in_app_or in Hin as [Hin|[<-|[]]].
    + eapply loc_le_trans; [apply Hb, Hin|exact Hle].
    + rewrite (Ht t' eq_refl); exact Hle.
  - eapply loc_le_trans; [apply Hb, Hin|exact Hle].
Qed.

Lemma try_lexers_ensures (Q : lexed -> Prop) source cur :
  forall ls,
    (forall l, In l ls -> ensures (l source cur) Q) ->
    ensures (try_lexers ls source cur)
            (fun r => forall tok newCursor, r = Some (tok, newCursor) ->
                                            Q (tok, newCursor, true)).
Proof.
  induction ls as [|l ls IH]; intros Hls; cbn [try_lexers].
  - apply ensures_Done; intros tok nc H; discriminate H.
  - apply ensures_bind; intros [[token newCursor] ok] Hl.
    apply ensures_if; intros Hok; subst.
    + apply ensures_Done; intros tok nc H; inversion H; subst.
      exact (Hls l (or_introl eq_refl) _ Hl).
    + apply IH; intros l' Hin; apply Hls; right; exact Hin.
Qed.

Lemma lexers_advance source cur :
  len source < max_len -> good source cur ->
  forall l, In l lexers -> ensures (l source cur) (advances source cur).
Proof.
  intros Hlen Hcur l Hin; unfold lexers in Hin; simpl in Hin.
  destruct Hin as [<-|[<-|[<-|[<-|[<-|[]]]]]].
  - apply lexKeyword_advances; assumption.
  - apply lexSymbol_advances; assumption.
  - apply lexNumeric_advances; assumption.
  - apply lexString_advances; assumption.
  - apply lexIdentifier_advances; assumption.
Qed.

Lemma lex_loop_monotone fuel source :
  len source < max_len ->
  forall tokens cur,
    good source cur -> monotone tokens -> below tokens cur ->
    ensures (lex_loop fuel source tokens cur)
            (fun r => forall ts, r = Tokens ts -> monotone ts).
Proof.
  intros Hlen; induction fuel as [|fuel IH]; intros tokens cur Hg Hm Hb;
    cbn [lex_loop]; apply ensures_if; intros Hlt;
    try (apply ensures_Done; intros ts Hts; inversion Hts; subst; exact Hm).
  - apply ensures_Timeout.
  - apply ensures_bind; intros r Hr.
    apply (try_lexers_ensures _ _ _ _ (lexers_advance source cur Hlen Hg)) in Hr.
    destruct r as [[token newCursor]|].
    + destruct (Hr token newCursor eq_refl eq_refl) as (Hp & Hg' & Hle & Ht).
      cbn [fst snd] in *.
      apply IH; [exact Hg'| |eapply below_append; eassumption].
      destruct token as [t|]; simpl; [|exact Hm].
      eapply monotone_append; eauto.
    + apply ensures_Done; intros ts Hts; discriminate Hts.
Qed.

Lemma good_cursor0 source : good source cursor0.
Proof. unfold good, cursor0; cbn [pointer loc Line Col]; lia. Qed.

(** C9: when [lex] succeeds, the locations of consecutive tokens do not
    decrease: the line does not decrease, and on the same line the column
    does not decrease.  The source is no longer than a Go string can be
    ([len] is an [int]). *)
Theorem lex_locations_monotone :
  forall (source : string) (tokens : list Token),
    len source < max_len ->
    lex source = Done (Tokens tokens) ->
    forall (i : nat) (t1 t2 : Token),
      nth_error tokens i = Some t1 ->
      nth_error tokens (S i) = Some t2 ->
      Line (Loc t1) <= Line (Loc t2)
      /\ (Line (Loc t1) = Line (Loc t2) -> Col (Loc t1) <= Col (Loc t2)).
Proof.
  intros source tokens Hlen Hlex.
  assert (Hm : monotone tokens).
  { refine (lex_loop_monotone _ source Hlen [] cursor0 (good_cursor0 source)
              _ _ _ Hlex tokens eq_refl).
    - intros [|i] t1 t2 H; discriminate H.
    - intros t []. }
  exact Hm.
Qed.

Lemma lex_locations_monotone_witness :
  len two_line_source < max_len
  /\ lex two_line_source = Done (Tokens two_line_tokens)
  /\ nth_error two_line_tokens 2 = Some (token "," SymbolKind 0 8)
  /\ nth_error two_line_tokens 3 = Some (token "b" IdentifierKind 1 0)
  /\ (Line (Loc (token "," SymbolKind 0 8)) <= Line (Loc (token "b" IdentifierKind 1 0))
      /\ (Line (Loc (token "," SymbolKind 0 8)) = Line (Loc (token "b" IdentifierKind 1 0)) ->
          Col (Loc (token "," SymbolKind 0 8)) <= Col (Loc (token "b" IdentifierKind 1 0)))).
Proof.
  assert (Hlen : len two_line_source < max_len) by (vm_compute; reflexivity).
  assert (Hlex : lex two_line_source = Done (Tokens two_line_tokens))
    by (vm_compute; reflexivity).
  assert (H2 : nth_error two_line_tokens 2 = Some (token "," SymbolKind 0 8))
    by reflexivity.
  assert (H3 : nth_error two_line_tokens 3 = Some (token "b" IdentifierKind 1 0))
    by reflexivity.
  repeat (split; [assumption|]).
  exact (lex_locations_monotone _ _ Hlen Hlex 2%nat _ _ H2 H3).
Defined.

(** ** The lexer returns *)

Lemma returns_Done {A} (a : A) : returns (Done a).
Proof. exists a; reflexivity. Qed.

Lemma returns_bind {A B} (m : exec A) (k : A -> exec B) :
  returns m -> (forall a, m = Done a -> returns (k a)) -> returns (bind m k).
Proof. intros [a ->] H; simpl; apply H; reflexivity. Qed.

Lemma returns_if {A} (b : bool) (r1 r2 : exec A) :
  (b = true -> returns r1) -> (b = false -> returns r2) ->
  returns (if b then r1 else r2).
Proof. destruct b; auto. Qed.

Lemma get_lt_Some s : forall n, (n < String.length s)%nat -> exists c, String.get n s = Some c.
Proof.
  induction s as [|a s IH]; intros [|n] H; simpl in *; try lia; eauto.
  apply IH; lia.
Qed.

Lemma index_returns source p : p < len source -> returns (index source p).
Proof.
  unfold len, index; intros H.
  destruct (get_lt_Some source (N.to_nat p)) as [c ->]; [lia|apply returns_Done].
Qed.

Lemma slice_returns s lo hi : lo <= hi <= len s -> returns (slice s lo hi).
Proof.
  intros [H1 H2]; unfold slice.
  apply N.leb_le in H1, H2; rewrite H1, H2; apply returns_Done.
Qed.

Ltac returns_step :=
  match goal with
  | |- returns (Done _) => apply returns_Done
  | |- returns (no_match _) => apply returns_Done
  | |- returns (bind (index _ _) _) =>
    apply returns_bind; [apply index_returns|intros ? ?]
  | |- returns (bind (slice _ _ _) _) =>
    apply returns_bind; [apply slice_returns|intros ? ?]
  | |- returns (if _ then _ else _) => apply returns_if; intros ?
  | |- returns (let _ := _ in _) => cbv zeta
  end.

Ltac arith := cursors; bools; unfold len in *; unwrap; lia.

Lemma lexNumeric_end_returns source ic cur :
  pointer ic <= pointer cur <= len source ->
  returns (lexNumeric_end source ic cur).
Proof. intros Hp; unfold lexNumeric_end; repeat returns_step; lia. Qed.

Lemma lexNumeric_loop_returns source ic :
  len source < max_len ->
  forall fuel cur periodFound expMarkerFound,
    pointer ic <= pointer cur <= len source ->
    len source <= pointer cur + N.of_nat fuel ->
    returns (lexNumeric_loop fuel source ic cur periodFound expMarkerFound).
Proof.
  unfold max_len; intros Hlen.
  induction fuel as [|fuel IH]; intros cur periodFound expMarkerFound Hp Hf;
    cbn [lexNumeric_loop]; repeat returns_step;
    try match goal with
        | |- context [if ?b then col_incr _ else _] => destruct b
        end;
    try (apply lexNumeric_end_returns); try apply IH; arith.
Qed.

Lemma lexNumeric_returns source ic :
  len source < max_len -> pointer ic <= len source ->
  returns (lexNumeric source ic).
Proof.
  intros Hlen Hp; apply lexNumeric_loop_returns; trivial; unfold len in *; lia.
Qed.

Lemma lexCharacterDelimited_loop_returns source ic delimiter :
  len source < max_len ->
  forall fuel cur value,
    pointer cur <= len source ->
    len source <= pointer cur + N.of_nat fuel ->
    returns (lexCharacterDelimited_loop fuel source ic cur delimiter value).
Proof.
  unfold max_len; intros Hlen.
  induction fuel as [|fuel IH]; intros cur value Hp Hf;
    cbn [lexCharacterDelimited_loop]; repeat returns_step;
    try apply IH; arith.
Qed.

Lemma substring_length_le s : forall n m, (String.length (substring n m s) <= m)%nat.
Proof.
  induction s as [|c s IH]; intros [|n] [|m]; simpl; try lia.
  - specialize (IH 0%nat m); lia.
  - apply (IH n 0%nat).
  - apply (IH n (S m)).
Qed.

Lemma slice_nonempty s lo hi a :
  slice s lo hi = Done a -> (len a =? 0) = false -> lo < hi.
Proof.
  unfold slice; destruct ((lo <=? hi) && (hi <=? len s)); [|discriminate].
  intros H Ha; inversion H; subst a; clear H; apply N.eqb_neq in Ha.
  pose proof (substring_length_le s (N.to_nat lo) (N.to_nat (hi - lo))).
  unfold len in Ha; lia.
Qed.

Lemma lexCharacterDelimited_returns source ic delimiter :
  len source < max_len -> pointer ic <= len source ->
  returns (lexCharacterDelimited source ic delimiter).
Proof.
  unfold max_len; intros Hlen Hp; unfold lexCharacterDelimited.
  repeat returns_step; try lia.
  - eapply slice_nonempty; eassumption.
  - apply lexCharacterDelimited_loop_returns; trivial; arith.
Qed.

Lemma lexIdentifier_end_returns ic cur value : returns (lexIdentifier_end ic cur value).
Proof. unfold lexIdentifier_end; repeat returns_step. Qed.

Lemma lexIdentifier_loop_returns source ic :
  len source < max_len ->
  forall fuel cur value,
    pointer cur <= len source ->
    len source <= pointer cur + N.of_nat fuel ->
    returns (lexIdentifier_loop fuel source ic cur value).
Proof.
  unfold max_len; intros Hlen.
  induction fuel as [|fuel IH]; intros cur value Hp Hf;
    cbn [lexIdentifier_loop]; repeat returns_step;
    try apply lexIdentifier_end_returns; try apply IH; arith.
Qed.

Lemma lexIdentifier_returns source ic :
  len source < max_len -> pointer ic < len source ->
  returns (lexIdentifier source ic).
Proof.
  intros Hlen Hp; unfold lexIdentifier.
  apply returns_bind; [apply lexCharacterDelimited_returns; trivial; lia|].
  intros [[token newCursor] ok] _; unfold max_len in Hlen.
  repeat returns_step; trivial.
  apply lexIdentifier_loop_returns; trivial; arith.
Qed.

Lemma fits_skip options skipList i n :
  fits options skipList i n -> fits options (skipList ++ [i])%list (S i) n.
Proof.
  intros Hfit j o Hj Hs; rewrite existsb_app in Hs.
  apply orb_false_elim in Hs as [Hs1 Hs2]; simpl in Hs2.
  rewrite orb_false_r in Hs2; apply Nat.eqb_neq in Hs2.
  specialize (Hfit j o Hj Hs1).
  destruct (j <? i)%nat eqn:E1, (j <? S i)%nat eqn:E2; trivial;
    [apply Nat.ltb_lt in E1; apply Nat.ltb_ge in E2
    |apply Nat.ltb_ge in E1; apply Nat.ltb_lt in E2]; lia.
Qed.

Lemma fits_keep options skipList i n :
  fits options skipList i n ->
  (forall o, nth_error options i = Some o ->
             existsb (Nat.eqb i) skipList = false -> n < len o) ->
  fits options skipList (S i) n.
Proof.
  intros Hfit Hi j o Hj Hs; specialize (Hfit j o Hj Hs).
  destruct (j <? i)%nat eqn:E1, (j <? S i)%nat eqn:E2; trivial.
  - apply Nat.ltb_lt in E1; apply Nat.ltb_ge in E2; lia.
  - apply Nat.ltb_ge in E1; apply Nat.ltb_lt in E2.
    assert (j = i) by lia; subst j; auto.
Qed.

Lemma fits_next options skipList n :
  fits options skipList (0 + List.length options) n ->
  fits options skipList 0 (n + 1).
Proof.
  intros Hfit j o Hj Hs; specialize (Hfit j o Hj Hs).
  assert (Hlt : (j < List.length options)%nat)
    by (apply nth_error_Some; congruence).
  apply Nat.ltb_lt in Hlt; simpl in Hfit; rewrite Hlt in Hfit.
  simpl; lia.
Qed.

Lemma substring_whole s : substring 0 (String.length s) s = s.
Proof. induction s as [|c s IH]; simpl; congruence. Qed.

Lemma longestMatch_options_returns value n total all :
  forall options i skipList match_,
    (forall j o, nth_error options j = Some o -> nth_error all (i + j) = Some o) ->
    fits all skipList i n ->
    exists skipList' match',
      longestMatch_options value n total i options skipList match_
        = Done (skipList', match')
      /\ fits all skipList' (i + List.length options) n.
Proof.
  induction options as [|option options IH]; intros i skipList match_ Hsuf Hfit;
    cbn [longestMatch_options].
  - exists skipList, match_; rewrite Nat.add_0_r; auto.
  - assert (Hi : nth_error all i = Some option)
      by (rewrite <- (Nat.add_0_r i); apply Hsuf; reflexivity).
    assert (Hsuf' : forall j o, nth_error options j = Some o ->
                                nth_error all (S i + j) = Some o)
      by (intros j o Hj; replace (S i + j)%nat with (i + S j)%nat by lia;
          apply Hsuf; exact Hj).
    replace (i + List.length (option :: options))%nat
      with (S i + List.length options)%nat by (simpl; lia).
    destruct (existsb (Nat.eqb i) skipList) eqn:Eskip.
    { apply IH; trivial; apply fits_keep; trivial; congruence. }
    destruct (String.eqb option value) eqn:Eopt.
    { apply IH; trivial; apply fits_skip; exact Hfit. }
    pose proof (Hfit i option Hi Eskip) as Hn; rewrite Nat.ltb_irrefl in Hn.
    unfold slice; apply N.leb_le in Hn as Hn'; rewrite Hn'; cbn [N.leb andb bind].
    replace (0 <=? n) with true by (symmetry; apply N.leb_le; lia); cbn [andb bind].
    destruct (_ || _) eqn:Eor.
    { apply IH; trivial; apply fits_skip; exact Hfit. }
    apply IH; trivial; apply fits_keep; trivial; intros o Ho _.
    rewrite Hi in Ho; inversion Ho; subst o; clear Ho.
    apply orb_false_elim in Eor as [_ Eshare].
    apply negb_false_iff, String.eqb_eq in Eshare.
    apply String.eqb_neq in Eopt.
    destruct (N.eq_dec n (len option)) as [->|Hne]; [|lia].
    exfalso; apply Eopt; rewrite Eshare.
    unfold len; rewrite N.sub_0_r, Nat2N.id; cbn [N.to_nat].
    symmetry; apply substring_whole.
Qed.

Lemma longestMatch_loop_returns source ic options :
  len source < max_len ->
  forall fuel cur value skipList match_,
    pointer ic <= pointer cur <= len source ->
    len source <= pointer cur + N.of_nat fuel ->
    fits options skipList 0 (pointer cur - pointer ic + 1) ->
    returns (longestMatch_loop fuel source ic cur options value skipList match_).
Proof.
  unfold max_len; intros Hlen.
  induction fuel as [|fuel IH]; intros cur value skipList match_ Hp Hf Hfit;
    cbn [longestMatch_loop]; repeat returns_step; try arith.
  destruct (longestMatch_options_returns (value ++ ToLower_byte a)
              (Uint.sub (pointer (pointer_incr cur)) (pointer ic))
              (List.length options) options options 0%nat skipList match_)
    as (skipList' & match' & -> & Hfit'); trivial.
  { bools; cursors; unwrap.
    replace (pointer cur + 1 - pointer ic) with (pointer cur - pointer ic + 1) by lia.
    exact Hfit. }
  cbn [bind]; repeat returns_step.
  bools; apply IH; [arith|arith|].
  apply fits_next in Hfit'; cursors; unwrap; exact Hfit'.
Qed.

Lemma longestMatch_returns source ic options :
  len source < max_len ->
  pointer ic <= len source ->
  (forall o, In o options -> (o =? "")%string = false) ->
  returns (longestMatch source ic options).
Proof.
  intros Hlen Hp Hopts; unfold longestMatch.
  apply longestMatch_loop_returns; trivial; [lia|unfold len; lia|].
  intros j o Hj _; apply nth_error_In, Hopts, len_nonempty in Hj.
  cbn [Nat.ltb Nat.leb]; lia.
Qed.

Lemma lexKeyword_returns source ic :
  len source < max_len -> pointer ic <= len source ->
  returns (lexKeyword source ic).
Proof.
  intros Hlen Hp; unfold lexKeyword.
  apply returns_bind; [|intros m _; repeat returns_step].
  apply longestMatch_returns; trivial.
  intros o Ho; unfold keywords in Ho; simpl in Ho.
  repeat (destruct Ho as [<-|Ho]; [reflexivity|]); destruct Ho.
Qed.

Lemma lexSymbol_returns source ic :
  len source < max_len -> pointer ic < len source ->
  returns (lexSymbol source ic).
Proof.
  intros Hlen Hp; unfold lexSymbol; repeat returns_step; trivial.
  apply returns_bind; [|intros m _; repeat returns_step].
  apply longestMatch_returns; trivial; [lia|].
  intros o Ho; unfold symbols in Ho; simpl in Ho.
  repeat (destruct Ho as [<-|Ho]; [reflexivity|]); destruct Ho.
Qed.

Lemma lexers_return source cur :
  len source < max_len -> pointer cur < len source ->
  forall l, In l lexers -> returns (l source cur).
Proof.
  intros Hlen Hp l Hin; unfold lexers in Hin; simpl in Hin.
  destruct Hin as [<-|[<-|[<-|[<-|[<-|[]]]]]].
  - apply lexKeyword_returns; trivial; lia.
  - apply lexSymbol_returns; trivial.
  - apply lexNumeric_returns; trivial; lia.
  - apply lexCharacterDelimited_returns; trivial; lia.
  - apply lexIdentifier_returns; trivial.
Qed.

Lemma try_lexers_returns source cur :
  forall ls,
    (forall l, In l ls -> returns (l source cur)) ->
    returns (try_lexers ls source cur).
Proof.
  induction ls as [|l ls IH]; intros Hls; cbn [try_lexers].
  - apply returns_Done.
  - apply returns_bind; [apply Hls; left; reflexivity|].
    intros [[token newCursor] ok] _; apply returns_if; intros _.
    + apply returns_Done.
    + apply IH; intros l' Hin; apply Hls; right; exact Hin.
Qed.

Lemma lex_loop_returns source :
  len source < max_len ->
  forall fuel tokens cur,
    good source cur ->
    len source <= pointer cur + N.of_nat fuel ->
    returns (lex_loop fuel source tokens cur).
Proof.
  intros Hlen; induction fuel as [|fuel IH]; intros tokens cur Hg Hf;
    cbn [lex_loop]; apply returns_if; intros Hlt; try apply returns_Done; bools.
  - lia.
  - apply returns_bind;
      [apply try_lexers_returns, lexers_return; assumption|].
    intros [[token newCursor]|] Hr; [|apply returns_Done].
    apply (try_lexers_ensures _ _ _ _ (lexers_advance source cur Hlen Hg)) in Hr.
    destruct (Hr token newCursor eq_refl eq_refl) as (Hp & Hg' & _).
    cbn [fst snd] in *; apply IH; [exact Hg'|lia].
Qed.

(** [lex] returns on every source that a Go string can hold: it does not
    panic, and the fuel of the model is never used up. *)
Theorem lex_terminates source :
  len source < max_len -> returns (lex source).
Proof.
  intros Hlen; apply lex_loop_returns; trivial;
    [apply good_cursor0|unfold len, cursor0; cbn [pointer]; lia].
Qed.

(** ** An accepted literal ends at a delimiter *)

Lemma lexCharacterDelimited_loop_closed source ic delimiter :
  len source < max_len ->
  forall fuel cur value,
    pointer ic < pointer cur <= len source ->
    ensures (lexCharacterDelimited_loop fuel source ic cur delimiter value)
            (closed_at source ic delimiter).
Proof.
  unfold max_len; intros Hlen.
  induction fuel as [|fuel IH]; intros cur value Hp;
    cbn [lexCharacterDelimited_loop]; repeat ensures_step; no_match_case;
    try (apply ensures_Done; intros _; cbn [fst snd];
         match goal with
         | Hc : index _ _ = Done ?c, He : (?c =? _)%char = true |- _ =>
           apply Ascii.eqb_eq in He; subst c; split; [lia|exact Hc]
         end);
    apply IH; arith.
Qed.

Lemma lexCharacterDelimited_closed source ic delimiter :
  len source < max_len ->
  ensures (lexCharacterDelimited source ic delimiter) (closed_at source ic delimiter).
Proof.
  unfold max_len; intros Hlen; unfold lexCharacterDelimited.
  repeat ensures_step; no_match_case.
  apply lexCharacterDelimited_loop_closed; trivial; arith.
Qed.

(** ** Keywords have no word boundary *)

(** One iteration of the loop of [longestMatch] on the byte [c]. *)
Lemma longestMatch_loop_unfold fuel source ic cur options value skipList match_ c :
  index source (pointer cur) = Done c ->
  longestMatch_loop (S fuel) source ic cur options value skipList match_
  = bind (longestMatch_options (value ++ ToLower_byte c)
            (Uint.sub (pointer (pointer_incr cur)) (pointer ic))
            (List.length options) 0%nat options skipList match_)
         (fun r =>
            if (List.length (fst r) =? List.length options)%nat then Done (snd r)
            else longestMatch_loop fuel source ic (pointer_incr cur) options
                   (value ++ ToLower_byte c) (fst r) (snd r)).
Proof.
  intros Hc; cbn [longestMatch_loop].
  rewrite (proj2 (N.ltb_lt _ _) (index_Done_lt _ _ _ Hc)), Hc; cbn [bind].
  destruct (longestMatch_options _ _ _ _ _ _ _) as [[sl m]| |]; reflexivity.
Qed.

(** Runs one iteration of [longestMatch] on the byte [c] of a source whose
    remainder is not known, and evaluates the pass over the options. *)
Ltac longestMatch_byte c :=
  rewrite (longestMatch_loop_unfold _ _ _ _ _ _ _ _ c) by reflexivity;
  match goal with
  | |- context [longestMatch_options ?v ?n ?t ?i ?o ?s ?m] =>
    let r := eval vm_compute in (longestMatch_options v n t i o s m) in
    change (longestMatch_options v n t i o s m) with r
  end;
  cbn [bind fst snd List.length Nat.eqb keywords].

(** C10: the keyword sub-lexer matches [select] at the head of a source
    whatever follows it, and ["selected"] lexes to the Keyword [select]
    followed by the Identifier [ed]. *)
Theorem lex_selected_two_tokens :
  (forall rest : string,
      lexKeyword ("select" ++ rest) cursor0
      = Done (Some (token "select" KeywordKind 0 0), cursor_at 6 0 6, true))
  /\ lex "selected"
     = Done (Tokens [token "select" KeywordKind 0 0; token "ed" IdentifierKind 0 6]).
Proof.
  split; [|vm_compute; reflexivity].
  intros rest; unfold lexKeyword, longestMatch; cbn [append String.length].
  longestMatch_byte "s"%char.
  longestMatch_byte "e"%char.
  longestMatch_byte "l"%char.
  longestMatch_byte "e"%char.
  longestMatch_byte "c"%char.
  longestMatch_byte "t"%char.
  reflexivity.
Qed.

(** ** What a sub-lexer does with the byte at the cursor *)

Lemma length_source_pos source p c :
  index source p = Done c -> exists n, String.length source = S n.
Proof.
  intros H; apply index_Done_lt in H; unfold len in H.
  destruct (String.length source) as [|n]; [lia|eauto].
Qed.

(** When the pass over the options after the first byte puts every option
    on the skip list, [longestMatch] returns the match of that pass. *)
Lemma longestMatch_one_byte source ic options c skipList m :
  len source < max_len ->
  index source (pointer ic) = Done c ->
  longestMatch_options (ToLower_byte c) 1 (List.length options) 0%nat options [] ""
    = Done (skipList, m) ->
  List.length skipList = List.length options ->
  longestMatch source ic options = Done m.
Proof.
  unfold max_len; intros Hlen Hc Hpass Hall; unfold longestMatch.
  destruct (length_source_pos _ _ _ Hc) as [n ->].
  rewrite (longestMatch_loop_unfold _ _ _ _ _ _ _ _ c Hc).
  assert (Hp := index_Done_lt _ _ _ Hc).
  replace (Uint.sub (pointer (pointer_incr ic)) (pointer ic)) with 1
    by (cursors; unwrap; lia).
  cbn [append]; rewrite Hpass; cbn [bind fst snd].
  rewrite Hall, Nat.eqb_refl; reflexivity.
Qed.

Lemma symbols_pass c :
  longestMatch_options (ToLower_byte c) 1 (List.length symbols) 0%nat symbols [] ""
  = Done ([0; 1; 2; 3; 4]%nat, if is_symbol_byte c then String c "" else "").
Proof. destruct c as [[] [] [] [] [] [] [] []]; vm_compute; reflexivity. Qed.

Lemma keywords_pass c :
  keyword_initial c = false ->
  longestMatch_options (ToLower_byte c) 1 (List.length keywords) 0%nat keywords [] ""
  = Done (seq 0 10, "").
Proof.
  destruct c as [[] [] [] [] [] [] [] []]; vm_compute; intros H;
    first [reflexivity | discriminate H].
Qed.

Lemma lexKeyword_not_initial source ic c :
  len source < max_len ->
  index source (pointer ic) = Done c ->
  keyword_initial c = false ->
  lexKeyword source ic = Done (None, ic, false).
Proof.
  intros Hlen Hc Hk; unfold lexKeyword.
  rewrite (longestMatch_one_byte _ _ _ _ _ _ Hlen Hc (keywords_pass c Hk) eq_refl).
  reflexivity.
Qed.

Lemma lexSymbol_by_byte source ic c :
  len source < max_len ->
  index source (pointer ic) = Done c ->
  lexSymbol source ic = Done (lexSymbol_at ic c).
Proof.
  intros Hlen Hc; unfold lexSymbol, lexSymbol_at; rewrite Hc; cbn [bind].
  assert (Hp := index_Done_lt _ _ _ Hc); unfold max_len in Hlen.
  assert (Hptr : pointer (pointer_incr (col_incr ic)) = pointer ic + 1)
    by (cursors; unwrap; lia).
  destruct (Ascii.eqb c "010").
  { unfold cursor_at; cursors; unwrap; reflexivity. }
  destruct (_ || _).
  { unfold cursor_at; cursors; unwrap; reflexivity. }
  rewrite (longestMatch_one_byte _ _ _ _ _ _ Hlen Hc (symbols_pass c) eq_refl).
  cbn [bind]; destruct (is_symbol_byte c); [|reflexivity].
  cbn [String.eqb]; unfold cursor_at, len; cursors; cbn [String.length N.of_nat Pos.of_succ_nat].
  unwrap; reflexivity.
Qed.

Lemma lexNumeric_other_byte source ic c :
  index source (pointer ic) = Done c ->
  isDigit c = false -> Ascii.eqb c "." = false ->
  lexNumeric source ic = Done (None, ic, false).
Proof.
  intros Hc Hd Hp; unfold lexNumeric.
  destruct (length_source_pos _ _ _ Hc) as [n ->]; cbn [lexNumeric_loop].
  rewrite (proj2 (N.ltb_lt _ _) (index_Done_lt _ _ _ Hc)), Hc; cbn [bind].
  cursors; rewrite N.eqb_refl; fold (isDigit c); rewrite Hd, Hp; reflexivity.
Qed.

Lemma lexCharacterDelimited_other_byte source ic c delimiter :
  index source (pointer ic) = Done c ->
  Ascii.eqb c delimiter = false ->
  lexCharacterDelimited source ic delimiter = Done (None, ic, false).
Proof.
  intros Hc Hd; unfold lexCharacterDelimited, slice.
  assert (Hp := index_Done_lt _ _ _ Hc).
  rewrite (proj2 (N.leb_le _ _) (N.lt_le_incl _ _ Hp)), N.leb_refl; cbn [andb bind].
  destruct (len _ =? 0); [reflexivity|].
  rewrite Hc; cbn [bind]; rewrite Hd; reflexivity.
Qed.

Lemma lexIdentifier_other_byte source ic c :
  index source (pointer ic) = Done c ->
  Ascii.eqb c "034" = false -> isAlpha c = false ->
  lexIdentifier source ic = Done (None, ic, false).
Proof.
  intros Hc Hq Ha; unfold lexIdentifier.
  rewrite (lexCharacterDelimited_other_byte _ _ _ _ Hc Hq); cbn [bind].
  rewrite Hc; cbn [bind]; rewrite Ha; reflexivity.
Qed.

(** ** Sources of symbols and blanks *)

Lemma append_assoc (a b c : string) : (a ++ b) ++ c = a ++ (b ++ c).
Proof. induction a as [|x a IH]; simpl; congruence. Qed.

Lemma append_empty_r (a : string) : a ++ "" = a.
Proof. induction a as [|x a IH]; simpl; congruence. Qed.

Lemma len_append a b : len (a ++ b) = len a + len b.
Proof. unfold len; rewrite length_append; lia. Qed.

Lemma index_append pre c suf : index (pre ++ String c suf) (len pre) = Done c.
Proof.
  unfold index, len; rewrite Nat2N.id.
  induction pre as [|x pre IH]; simpl; [reflexivity|exact IH].
Qed.

Lemma blank_or_symbol_not_initial c :
  is_blank c || is_symbol_byte c = true -> keyword_initial c = false.
Proof.
  destruct c as [[] [] [] [] [] [] [] []]; vm_compute; intros H;
    first [reflexivity | discriminate H].
Qed.

Lemma lexSymbol_at_blank_or_symbol ic c :
  is_blank c || is_symbol_byte c = true ->
  exists cur,
    lexSymbol_at ic c
    = (if is_symbol_byte c
       then Some {| Value := String c ""; Kind := SymbolKind; Loc := loc ic |}
       else None, cur, true)
    /\ pointer cur = pointer ic + 1.
Proof.
  unfold lexSymbol_at.
  destruct c as [[] [] [] [] [] [] [] []]; vm_compute is_blank; vm_compute is_symbol_byte;
    intros H; try discriminate H; cbn [Ascii.eqb Bool.eqb andb orb];
    eexists; split; reflexivity.
Qed.

Lemma lex_loop_step source tokens cur fuel token newCursor :
  pointer cur < len source ->
  try_lexers lexers source cur = Done (Some (token, newCursor)) ->
  lex_loop (S fuel) source tokens cur
  = lex_loop fuel source (append_token tokens token) newCursor.
Proof.
  intros Hp Htry; cbn [lex_loop].
  rewrite (proj2 (N.ltb_lt _ _) Hp), Htry; reflexivity.
Qed.

Lemma lex_loop_end source tokens cur fuel :
  len source <= pointer cur ->
  lex_loop fuel source tokens cur = Done (Tokens tokens).
Proof.
  intros Hp; destruct fuel; cbn [lex_loop];
    rewrite (proj2 (N.ltb_ge _ _) Hp); reflexivity.
Qed.

Lemma lex_loop_symbols :
  forall suf pre fuel tokens cur,
    len (pre ++ suf) < max_len ->
    forall_bytes (fun c => is_blank c || is_symbol_byte c) suf = true ->
    pointer cur = len pre ->
    (String.length suf <= fuel)%nat ->
    exists new,
      lex_loop fuel (pre ++ suf) tokens cur = Done (Tokens (tokens ++ new)%list)
      /\ map kinded new
         = map symbol_of (filter is_symbol_byte (list_ascii_of_string suf)).
Proof.
  induction suf as [|c suf IH]; intros pre fuel tokens cur Hlen Hall Hp Hf.
  - exists []; rewrite app_nil_r; split; [|reflexivity].
    apply lex_loop_end; rewrite append_empty_r; lia.
  - cbn [forall_bytes] in Hall; apply andb_prop in Hall as [Hc Hall].
    destruct fuel as [|fuel]; [simpl in Hf; lia|].
    assert (Hidx : index (pre ++ String c suf) (pointer cur) = Done c)
      by (rewrite Hp; apply index_append).
    destruct (lexSymbol_at_blank_or_symbol cur c Hc) as (nc & Hat & Hnc).
    assert (Htry : try_lexers lexers (pre ++ String c suf) cur
                   = Done (Some (if is_symbol_byte c
                                 then Some {| Value := String c ""; Kind := SymbolKind;
                                              Loc := loc cur |}
                                 else None, nc))).
    { cbn [try_lexers lexers].
      rewrite (lexKeyword_not_initial _ _ _ Hlen Hidx (blank_or_symbol_not_initial c Hc)).
      cbn [bind]; rewrite (lexSymbol_by_byte _ _ _ Hlen Hidx), Hat; reflexivity. }
    rewrite (lex_loop_step _ _ _ _ _ _ (index_Done_lt _ _ _ Hidx) Htry).
    replace (pre ++ String c suf) with ((pre ++ String c "") ++ suf) in *
      by (rewrite append_assoc; reflexivity).
    destruct (IH (pre ++ String c "") fuel
                 (append_token tokens
                    (if is_symbol_byte c
                     then Some {| Value := String c ""; Kind := SymbolKind; Loc := loc cur |}
                     else None))
                 nc Hlen Hall) as (new & Hrun & Hnew).
    { rewrite Hnc, Hp, len_append; reflexivity. }
    { simpl in Hf; lia. }
    rewrite Hrun; cbn [list_ascii_of_string filter].
    destruct (is_symbol_byte c); cbn [append_token].
    + eexists (_ :: new); rewrite <- app_assoc; split; [reflexivity|].
      cbn [map]; rewrite Hnew; reflexivity.
    + exists new; split; [reflexivity|exact Hnew].
Qed.

(** X8: a source of symbols, spaces, tabs and newlines lexes to the Symbol
    tokens of its symbols, in the order of the source. *)
Theorem lex_symbols_and_blanks :
  forall source : string,
  len source < max_len ->
  forall_bytes (fun c => is_blank c || is_symbol_byte c) source = true ->
  exists tokens,
    lex source = Done (Tokens tokens)
    /\ map kinded tokens
       = map symbol_of (filter is_symbol_byte (list_ascii_of_string source)).
Proof.
  intros source Hlen Hall.
  destruct (lex_loop_symbols source "" (String.length source) [] cursor0 Hlen Hall
              eq_refl (Nat.le_refl _)) as (new & Hrun & Hnew).
  exists new; split; assumption.
Qed.

(** ** Slices of the source *)

Lemma substring_zero s : forall n, substring n 0 s = "".
Proof. induction s as [|a s IH]; intros [|n]; simpl; auto. Qed.

Lemma substring_snoc s :
  forall n k c,
    String.get (n + k) s = Some c ->
    substring n (S k) s = substring n k s ++ String c "".
Proof.
  induction s as [|a s IH]; intros n k c H.
  - destruct (n + k)%nat; discriminate H.
  - destruct n as [|n].
    + destruct k as [|k]; simpl in H.
      * inversion H; subst; simpl; rewrite substring_zero; reflexivity.
      * change (substring 0 (S (S k)) (String a s))
          with (String a (substring 0 (S k) s)).
        rewrite (IH 0%nat k c H); reflexivity.
    + exact (IH n k c H).
Qed.

Lemma index_get source p c :
  index source p = Done c -> String.get (N.to_nat p) source = Some c.
Proof.
  unfold index; destruct (String.get (N.to_nat p) source); intros H;
    inversion H; reflexivity.
Qed.

Lemma index_past_end source p : len source <= p -> index source p = Panic.
Proof.
  intros Hp; destruct (index source p) as [c| |] eqn:E; trivial.
  - apply index_Done_lt in E; lia.
  - unfold index in E; destruct (String.get _ _); discriminate E.
Qed.

Lemma slice_empty source lo : lo <= len source -> slice source lo lo = Done "".
Proof.
  intros H; unfold slice.
  rewrite N.leb_refl, (proj2 (N.leb_le _ _) H), N.sub_diag; cbn [andb N.to_nat].
  rewrite substring_zero; reflexivity.
Qed.

Lemma slice_snoc source lo hi v c :
  lo <= hi ->
  slice source lo hi = Done v ->
  index source hi = Done c ->
  slice source lo (hi + 1) = Done (v ++ String c "").
Proof.
  intros Hle Hv Hc; unfold slice in *.
  assert (Hhi := index_Done_lt _ _ _ Hc).
  destruct ((lo <=? hi) && (hi <=? len source)); [|discriminate Hv].
  inversion Hv; subst v; clear Hv.
  replace ((lo <=? hi + 1) && (hi + 1 <=? len source)) with true
    by (symmetry; apply andb_true_intro; split; apply N.leb_le; lia).
  replace (N.to_nat (hi + 1 - lo)) with (S (N.to_nat (hi - lo))) by lia.
  rewrite (substring_snoc source _ _ c); [reflexivity|].
  replace (N.to_nat lo + N.to_nat (hi - lo))%nat with (N.to_nat hi) by lia.
  apply index_get, Hc.
Qed.

(** ** The value of a delimited literal *)

Lemma lexCharacterDelimited_loop_raw source ic delimiter :
  len source < max_len ->
  index source (pointer ic) = Done delimiter ->
  forall fuel cur value,
    pointer ic < pointer cur <= len source ->
    slice source (pointer ic + 1) (pointer cur) = Done value ->
    ensures (lexCharacterDelimited_loop fuel source ic cur delimiter value)
            (delimited_match source ic delimiter).
Proof.
  unfold max_len; intros Hlen Hic.
  induction fuel as [|fuel IH]; intros cur value Hp Hv;
    cbn [lexCharacterDelimited_loop]; repeat ensures_step; no_match_case.
  - (* the delimiter is the last byte *)
    apply Ascii.eqb_eq in H1; subst a.
    assert (Hc := index_Done_lt _ _ _ H0).
    apply ensures_Done; intros _; exists value; cbn [fst snd].
    repeat split; trivial; try lia.
    rewrite index_past_end; [discriminate|]. bools; unwrap; lia.
  - (* the delimiter is followed by another byte *)
    apply Ascii.eqb_eq in H1; subst a.
    assert (Hc := index_Done_lt _ _ _ H0).
    apply ensures_Done; intros _; exists value; cbn [fst snd].
    repeat split; trivial; try lia.
    apply negb_true_iff, Ascii.eqb_neq in H4.
    assert (Hn := index_Done_lt _ _ _ H3).
    rewrite add_small in H3 by lia; rewrite H3; congruence.
  - (* the doubled delimiter *)
    apply Ascii.eqb_eq in H1; subst a.
    apply negb_false_iff, Ascii.eqb_eq in H4; subst a0.
    assert (Hc := index_Done_lt _ _ _ H0).
    assert (Hn := index_Done_lt _ _ _ H3).
    rewrite add_small in H3, Hn by lia.
    apply IH; cursors; unwrap; [lia|].
    replace (pointer cur + 1 + 1) with ((pointer cur + 1) + 1) by lia.
    apply slice_snoc; [lia| |exact H3].
    apply slice_snoc; [lia|exact Hv|exact H0].
  - (* another byte *)
    assert (Hc := index_Done_lt _ _ _ H0).
    apply IH; cursors; unwrap; [lia|].
    apply slice_snoc; [lia|exact Hv|exact H0].
Qed.

Lemma lexCharacterDelimited_raw source ic delimiter :
  len source < max_len ->
  ensures (lexCharacterDelimited source ic delimiter)
          (delimited_match source ic delimiter).
Proof.
  intros Hlen; unfold lexCharacterDelimited.
  repeat ensures_step; no_match_case.
  apply negb_false_iff, Ascii.eqb_eq in H2; subst a0.
  assert (Hc := index_Done_lt _ _ _ H1); unfold max_len in Hlen.
  apply lexCharacterDelimited_loop_raw; trivial; cursors; unwrap; try lia.
  apply slice_empty; lia.
Qed.

(** ** No token of a successful [lex] is a String *)

Lemma ensures_and {A} (r : exec A) (P Q : A -> Prop) :
  ensures r P -> ensures r Q -> ensures r (fun a => P a /\ Q a).
Proof. intros HP HQ a Ha; split; [apply HP|apply HQ]; exact Ha. Qed.

Lemma substring_length s :
  forall n m, (n + m <= String.length s)%nat -> String.length (substring n m s) = m.
Proof.
  induction s as [|a s IH]; intros [|n] [|m] H; simpl in *; try lia; auto.
  - rewrite (IH 0%nat m); lia.
  - apply (IH n 0%nat); lia.
  - apply (IH n (S m)); lia.
Qed.

Lemma slice_len source lo hi v : slice source lo hi = Done v -> len v = hi - lo.
Proof.
  unfold slice; destruct ((lo <=? hi) && (hi <=? len source)) eqn:E; [|discriminate].
  apply andb_prop in E as [E1 E2]; apply N.leb_le in E1, E2.
  intros H; inversion H; subst v; unfold len in *.
  rewrite substring_length; lia.
Qed.

Lemma len_zero_empty v : len v = 0 -> v = "".
Proof. destruct v; [reflexivity|unfold len; simpl; lia]. Qed.

Lemma matched_plain source (t : Token) cur :
  plain t -> ensures (Done (Some t, cur, true)) (plain_or_quote source).
Proof.
  intros Ht; apply ensures_Done; intros _; left; cbn [fst snd].
  intros t' Ht'; inversion Ht'; subst; exact Ht.
Qed.

Lemma unmatched_plain source (x : option Token) cur :
  ensures (Done (x, cur, false)) (plain_or_quote source).
Proof. apply ensures_Done; intros H; discriminate H. Qed.

Lemma lexKeyword_plain source ic : ensures (lexKeyword source ic) (plain_or_quote source).
Proof.
  unfold lexKeyword; repeat ensures_step; [apply unmatched_plain|].
  apply matched_plain; split; cbn [Kind Value]; [discriminate|].
  apply String.eqb_neq; assumption.
Qed.

Lemma lexSymbol_plain source ic : ensures (lexSymbol source ic) (plain_or_quote source).
Proof.
  unfold lexSymbol; repeat ensures_step;
    try (apply ensures_Done; intros _; left; cbn [fst snd]; intros t Ht; discriminate Ht).
  apply matched_plain; split; cbn [Kind Value]; [discriminate|].
  apply String.eqb_neq; assumption.
Qed.

Lemma lexNumeric_end_plain source ic cur :
  ensures (lexNumeric_end source ic cur) (plain_or_quote source).
Proof.
  unfold lexNumeric_end; repeat ensures_step; [apply unmatched_plain|].
  apply matched_plain; split; cbn [Kind Value]; [discriminate|].
  intros ->. apply slice_len in H0 as Hl.
  unfold slice in H0; destruct ((_ <=? _) && _) eqn:E; [|discriminate H0].
  apply andb_prop in E as [E1 _]; bools; unfold len in Hl; simpl in Hl; lia.
Qed.

Lemma lexNumeric_loop_plain fuel source ic :
  forall cur periodFound expMarkerFound,
    ensures (lexNumeric_loop fuel source ic cur periodFound expMarkerFound)
            (plain_or_quote source).
Proof.
  induction fuel as [|fuel IH]; intros cur p e;
    cbn [lexNumeric_loop]; repeat ensures_step;
    first [apply unmatched_plain | apply lexNumeric_end_plain | apply IH].
Qed.

Lemma lexNumeric_plain source ic : ensures (lexNumeric source ic) (plain_or_quote source).
Proof. apply lexNumeric_loop_plain. Qed.

Lemma lexString_quote source ic :
  len source < max_len -> ensures (lexString source ic) (plain_or_quote source).
Proof.
  intros Hlen x Hx Hok; right; exists "'"%char; split; [reflexivity|].
  destruct (lexCharacterDelimited_raw source ic _ Hlen x Hx Hok)
    as (v & _ & _ & _ & _ & Hc & _); exact Hc.
Qed.

Lemma ToLower_not_empty v : v <> "" -> ToLower v <> "".
Proof. destruct v; [congruence|discriminate]. Qed.

Lemma lexIdentifier_end_plain source ic cur value :
  ensures (lexIdentifier_end ic cur value) (plain_or_quote source).
Proof.
  unfold lexIdentifier_end; repeat ensures_step; [apply unmatched_plain|].
  apply matched_plain; split; cbn [Kind Value]; [discriminate|].
  apply ToLower_not_empty; intros ->; bools; unfold len in *; simpl in *; lia.
Qed.

Lemma lexIdentifier_loop_plain fuel source ic :
  forall cur value,
    ensures (lexIdentifier_loop fuel source ic cur value) (plain_or_quote source).
Proof.
  induction fuel as [|fuel IH]; intros cur value;
    cbn [lexIdentifier_loop]; repeat ensures_step;
    first [apply lexIdentifier_end_plain | apply IH].
Qed.

Lemma lexIdentifier_plain source ic :
  len source < max_len -> ensures (lexIdentifier source ic) (plain_or_quote source).
Proof.
  intros Hlen; unfold lexIdentifier.
  apply ensures_bind; intros [[token newCursor] ok] Hd.
  apply ensures_if; intros Hok; subst.
  - apply ensures_Done; intros _; right; exists "034"%char; split; [reflexivity|].
    destruct (lexCharacterDelimited_raw source ic _ Hlen _ Hd eq_refl)
      as (v & _ & _ & _ & _ & Hc & _); exact Hc.
  - repeat ensures_step; [apply unmatched_plain|apply lexIdentifier_loop_plain].
Qed.

Lemma lexers_plain source cur :
  len source < max_len ->
  forall l, In l lexers -> ensures (l source cur) (plain_or_quote source).
Proof.
  intros Hlen l Hin; unfold lexers in Hin; simpl in Hin.
  destruct Hin as [<-|[<-|[<-|[<-|[<-|[]]]]]].
  - apply lexKeyword_plain.
  - apply lexSymbol_plain.
  - apply lexNumeric_plain.
  - apply lexString_quote, Hlen.
  - apply lexIdentifier_plain, Hlen.
Qed.

Lemma quote_cases d : is_quote d = true -> d = "'"%char \/ d = "034"%char.
Proof.
  unfold is_quote; intros H; apply orb_prop in H as [H|H];
    apply Ascii.eqb_eq in H; auto.
Qed.

Lemma try_lexers_cons l ls source cur :
  try_lexers (l :: ls) source cur
  = bind (l source cur)
         (fun x => if snd x then Done (Some (fst x)) else try_lexers ls source cur).
Proof.
  cbn [try_lexers]; destruct (l source cur) as [[[token newCursor] ok]| |];
    reflexivity.
Qed.

(** At a cursor on a quote the first three sub-lexers do not match. *)
Lemma try_lexers_on_quote source cur d :
  len source < max_len ->
  is_quote d = true ->
  index source (pointer cur) = Done d ->
  try_lexers lexers source cur = try_lexers [lexString; lexIdentifier] source cur.
Proof.
  intros Hlen Hq Hd; unfold lexers.
  rewrite try_lexers_cons, (lexKeyword_not_initial _ _ d Hlen Hd); cbn [bind snd].
  2: { destruct (quote_cases d Hq) as [->| ->]; reflexivity. }
  rewrite try_lexers_cons, (lexSymbol_by_byte _ _ d Hlen Hd).
  replace (lexSymbol_at cur d) with (@None Token, cur, false)
    by (destruct (quote_cases d Hq) as [->| ->]; reflexivity).
  cbn [bind snd].
  rewrite try_lexers_cons, (lexNumeric_other_byte _ _ d Hd); cbn [bind snd];
    trivial; destruct (quote_cases d Hq) as [->| ->]; reflexivity.
Qed.

(** From a cursor on a quote, [lex] does not succeed. *)
Lemma lex_loop_stuck source :
  len source < max_len ->
  forall fuel tokens cur d,
    good source cur ->
    is_quote d = true ->
    index source (pointer cur) = Done d ->
    ensures (lex_loop fuel source tokens cur) (fun r => forall ts, r <> Tokens ts).
Proof.
  intros Hlen; induction fuel as [|fuel IH]; intros tokens cur d Hg Hq Hd;
    cbn [lex_loop]; rewrite (proj2 (N.ltb_lt _ _) (index_Done_lt _ _ _ Hd)).
  - apply ensures_Timeout.
  - rewrite (try_lexers_on_quote _ _ _ Hlen Hq Hd).
    assert (Hnext : forall delimiter x,
               lexCharacterDelimited source cur delimiter = Done x -> snd x = true ->
               ensures (lex_loop fuel source (append_token tokens (fst (fst x)))
                          (snd (fst x)))
                       (fun r => forall ts, r <> Tokens ts)).
    { intros delimiter x Hx Hok.
      destruct (lexCharacterDelimited_raw source cur _ Hlen x Hx Hok)
        as (v & _ & _ & _ & Hopen & Hclose & _).
      destruct (lexCharacterDelimited_advances source cur _ Hlen Hg x Hx Hok)
        as (_ & Hg' & _).
      apply (IH _ _ delimiter); trivial; congruence. }
    assert (Hfail : ensures (Done (LexError (lex_error tokens cur)))
                            (fun r => forall ts, r <> Tokens ts))
      by (apply ensures_Done; discriminate).
    rewrite try_lexers_cons; unfold lexString at 1.
    destruct (lexCharacterDelimited source cur "'") as [[[token newCursor] ok]| |] eqn:Hs;
      cbn [bind snd fst]; [|apply ensures_Panic|apply ensures_Timeout].
    destruct ok; cbn [bind]; [exact (Hnext _ _ Hs eq_refl)|].
    rewrite try_lexers_cons; unfold lexIdentifier at 1.
    destruct (lexCharacterDelimited source cur "034")
      as [[[token' newCursor'] ok']| |] eqn:Hi;
      cbn [bind snd fst]; [|apply ensures_Panic|apply ensures_Timeout].
    destruct ok'; cbn [bind snd fst]; [exact (Hnext _ _ Hi eq_refl)|].
    rewrite Hd; cbn [bind].
    replace (isAlpha d) with false
      by (destruct (quote_cases d Hq) as [->| ->]; reflexivity).
    cbn [negb no_match bind snd try_lexers]; exact Hfail.
Qed.

Lemma lex_loop_plain source :
  len source < max_len ->
  forall fuel tokens cur,
    good source cur ->
    Forall plain tokens ->
    ensures (lex_loop fuel source tokens cur)
            (fun r => forall ts, r = Tokens ts -> Forall plain ts).
Proof.
  intros Hlen; induction fuel as [|fuel IH]; intros tokens cur Hg Hall;
    cbn [lex_loop]; apply ensures_if; intros Hlt;
    try (apply ensures_Done; intros ts Hts; inversion Hts; subst; exact Hall).
  - apply ensures_Timeout.
  - apply ensures_bind; intros r Hr.
    assert (Hboth : forall l, In l lexers ->
              ensures (l source cur)
                      (fun x => advances source cur x /\ plain_or_quote source x))
      by (intros l Hl; apply ensures_and;
          [apply lexers_advance|apply lexers_plain]; assumption).
    apply (try_lexers_ensures _ _ _ _ Hboth) in Hr.
    destruct r as [[token newCursor]|];
      [|apply ensures_Done; intros ts Hts; discriminate Hts].
    destruct (Hr token newCursor eq_refl) as [Hadv Hplain].
    destruct (Hadv eq_refl) as (_ & Hg' & _); cbn [fst snd] in *.
    destruct (Hplain eq_refl) as [Htok|(d & Hq & Hd)]; cbn [fst snd] in *.
    + apply IH; trivial.
      destruct token as [t|]; cbn [append_token]; trivial.
      apply Forall_app; split; trivial; constructor; auto.
    + intros x Hx ts Hts; subst x.
      destruct (lex_loop_stuck source Hlen fuel _ _ d Hg' Hq Hd _ Hx ts eq_refl).
Qed.

(** X12: no token that [lex] returns is of kind String, and none has an
    empty value. *)
Theorem lex_tokens_plain :
  forall (source : string) (tokens : list Token) (t : Token),
    len source < max_len ->
    lex source = Done (Tokens tokens) ->
    In t tokens ->
    Kind t <> StringKind /\ Value t <> "".
Proof.
  intros source tokens t Hlen Hlex Hin.
  pose proof (lex_loop_plain source Hlen _ [] cursor0 (good_cursor0 source)
                (Forall_nil _) _ Hlex tokens eq_refl) as Hall.
  rewrite Forall_forall in Hall; exact (Hall t Hin).
Qed.

(** ** Bare identifiers *)

Lemma forall_bytes_append f a b :
  forall_bytes f (a ++ b) = forall_bytes f a && forall_bytes f b.
Proof.
  induction a as [|x a IH]; simpl; [reflexivity|].
  rewrite IH; apply andb_assoc.
Qed.

Lemma forall_bytes_snoc f a c :
  forall_bytes f a = true -> f c = true -> forall_bytes f (a ++ String c "") = true.
Proof. intros Ha Hc; rewrite forall_bytes_append, Ha; simpl; rewrite Hc; reflexivity. Qed.

Lemma lexIdentifier_end_match source ic cur value :
  pointer ic < pointer cur ->
  slice source (pointer ic) (pointer cur) = Done value ->
  forall_bytes is_ident_byte value = true ->
  (forall c, index source (pointer cur) = Done c -> is_ident_byte c = false) ->
  exists x, lexIdentifier_end ic cur value = Done x /\ identifier_match source ic x.
Proof.
  intros Hp Hv Hall Hmax; unfold lexIdentifier_end.
  replace (len value =? 0) with false
    by (symmetry; apply N.eqb_neq; rewrite (slice_len _ _ _ _ Hv); lia).
  eexists; split; [reflexivity|]; exists value, cur; auto.
Qed.

Lemma lexIdentifier_loop_match source ic :
  len source < max_len ->
  forall fuel cur value,
    pointer ic < pointer cur <= len source ->
    slice source (pointer ic) (pointer cur) = Done value ->
    forall_bytes is_ident_byte value = true ->
    len source <= pointer cur + N.of_nat fuel ->
    exists x,
      lexIdentifier_loop fuel source ic cur value = Done x
      /\ identifier_match source ic x.
Proof.
  unfold max_len; intros Hlen.
  induction fuel as [|fuel IH]; intros cur value Hp Hv Hall Hf;
    cbn [lexIdentifier_loop]; destruct (pointer cur <? len source) eqn:Hlt; bools;
    try lia;
    try (apply lexIdentifier_end_match; trivial; [lia|];
         intros c Hc; apply index_Done_lt in Hc; lia).
  destruct (index_returns source (pointer cur) Hlt) as [c Hc]; rewrite Hc; cbn [bind].
  fold (isDigit c); fold (is_ident_byte c).
  destruct (is_ident_byte c) eqn:Hid.
  - apply IH; cursors; unwrap; [lia| |apply forall_bytes_snoc; trivial|lia].
    apply slice_snoc; trivial; lia.
  - apply lexIdentifier_end_match; trivial; [lia|].
    intros c' Hc'; congruence.
Qed.

Lemma lexIdentifier_bare :
  forall (source : string) (ic : cursor) (c : ascii),
    len source < max_len ->
    index source (pointer ic) = Done c ->
    isAlpha c = true ->
    exists x, lexIdentifier source ic = Done x /\ identifier_match source ic x.
Proof.
  intros source ic c Hlen Hc Ha; unfold lexIdentifier.
  rewrite (lexCharacterDelimited_other_byte _ _ c).
  2: exact Hc.
  2: { destruct c as [[] [] [] [] [] [] [] []]; vm_compute in Ha; vm_compute;
       first [reflexivity|discriminate Ha]. }
  cbn [bind]; rewrite Hc; cbn [bind]; rewrite Ha; cbn [negb].
  assert (Hp := index_Done_lt _ _ _ Hc); unfold max_len in Hlen.
  apply lexIdentifier_loop_match; trivial; cursors; unwrap; try lia.
  - replace (String c "") with ("" ++ String c "") by reflexivity.
    apply slice_snoc; [lia| |exact Hc]. apply slice_empty; lia.
  - simpl; unfold is_ident_byte; rewrite Ha; reflexivity.
  - unfold len; lia.
Qed.

(** ** The shape of a numeral *)

Lemma count_byte_snoc c a x :
  count_byte c (a ++ String x "")
  = (count_byte c a + if Ascii.eqb x c then 1 else 0)%nat.
Proof. induction a as [|y a IH]; simpl; [lia|rewrite IH; lia]. Qed.

Lemma numeral_so_far_snoc source ic p e e' v c :
  pointer ic <= p ->
  numeral_so_far source ic p e v ->
  index source p = Done c ->
  is_numeral_byte c = true ->
  (if Ascii.eqb c "e" then e = false /\ e' = true else e' = e) ->
  (p = pointer ic -> isDigit c || Ascii.eqb c "." = true) ->
  numeral_so_far source ic (p + 1) e' (v ++ String c "").
Proof.
  intros Hp (Hv & Hall & Hcount & Hnone & Hfirst) Hc Hnum He H0.
  unfold numeral_so_far; rewrite count_byte_snoc.
  split; [apply slice_snoc; trivial|].
  split; [apply forall_bytes_snoc; trivial|].
  destruct (Ascii.eqb c "e").
  - destruct He as [-> ->]; rewrite (Hnone eq_refl).
    repeat split; try lia; try discriminate.
    intros _; destruct (N.eq_dec p (pointer ic)) as [E|E].
    + exists c; rewrite <- E; auto.
    + apply Hfirst; lia.
  - subst e'; repeat split; try lia.
    + intros E; rewrite (Hnone E); lia.
    + intros _; destruct (N.eq_dec p (pointer ic)) as [E|E].
      * exists c; rewrite <- E; auto.
      * apply Hfirst; lia.
Qed.

Lemma lexNumeric_end_shape source ic cur e v :
  numeral_so_far source ic (pointer cur) e v ->
  pointer ic <= pointer cur ->
  ensures (lexNumeric_end source ic cur) (numeral_match source ic).
Proof.
  intros (Hv & Hall & Hcount & _ & Hfirst) Hp; unfold lexNumeric_end.
  repeat ensures_step; no_match_case.
  bools; destruct (Hfirst ltac:(lia)) as (c0 & Hc0 & Hd0).
  apply ensures_Done; intros _; cbn [fst snd].
  assert (a = v) by congruence; subst a.
  exists v, c0; repeat split; trivial; lia.
Qed.

Lemma numeral_byte_cases c :
  (isDigit c = true -> is_numeral_byte c = true /\ Ascii.eqb c "e" = false)
  /\ (Ascii.eqb c "." = true -> is_numeral_byte c = true /\ Ascii.eqb c "e" = false)
  /\ (Ascii.eqb c "-" || Ascii.eqb c "+" = true ->
      is_numeral_byte c = true /\ Ascii.eqb c "e" = false)
  /\ (Ascii.eqb c "e" = true -> is_numeral_byte c = true).
Proof.
  destruct c as [[] [] [] [] [] [] [] []]; vm_compute; intuition discriminate.
Qed.

Lemma lexNumeric_loop_shape source ic :
  len source < max_len ->
  forall fuel cur periodFound expMarkerFound v,
    pointer ic <= pointer cur ->
    numeral_so_far source ic (pointer cur) expMarkerFound v ->
    ensures (lexNumeric_loop fuel source ic cur periodFound expMarkerFound)
            (numeral_match source ic).
Proof.
  unfold max_len; intros Hlen.
  induction fuel as [|fuel IH]; intros cur p e v Hp Hv; cbn [lexNumeric_loop];
    (apply ensures_if; intros Hlt; [|eapply lexNumeric_end_shape; eassumption]).
  { apply ensures_Timeout. }
  apply ensures_bind; intros c Hc; cbv zeta.
  fold (isDigit c); cursors; apply N.ltb_lt in Hlt.
  destruct (numeral_byte_cases c) as (Hdig & Hper & _ & Hexp).
  assert (Hnext : Uint.incr (pointer cur) = pointer cur + 1) by (unwrap; reflexivity).
  apply ensures_if; intros Hfirst.
  { apply ensures_if; intros Hstart; no_match_case.
    apply N.eqb_eq in Hfirst.
    assert (Hok : isDigit c || Ascii.eqb c "." = true).
    { destruct (isDigit c), (Ascii.eqb c "."); trivial; discriminate Hstart. }
    assert (Hnum : is_numeral_byte c = true /\ Ascii.eqb c "e" = false).
    { apply orb_prop in Hok as [H|H]; auto. }
    eapply IH; cbn [pointer]; rewrite Hnext; [lia|].
    eapply numeral_so_far_snoc; try eassumption; try tauto.
    destruct Hnum as [_ ->]; reflexivity. }
  apply N.eqb_neq in Hfirst.
  apply ensures_if; intros Hperiod.
  { apply ensures_if; intros Hfound; no_match_case.
    eapply IH; cbn [pointer]; rewrite Hnext; [lia|].
    eapply numeral_so_far_snoc; try eassumption; try tauto.
    destruct (Hper Hperiod) as [_ ->]; reflexivity. }
  apply ensures_if; intros Hmarker.
  { apply ensures_if; intros Hfound; no_match_case.
    apply ensures_if; intros Hlast; no_match_case.
    apply ensures_bind; intros cNext HcNext.
    assert (Hn := index_Done_lt _ _ _ HcNext).
    rewrite add_small in HcNext, Hn by lia.
    assert (He : numeral_so_far source ic (pointer cur + 1) true (v ++ String c "")).
    { eapply numeral_so_far_snoc; try eassumption; try tauto.
      rewrite Hmarker; auto. }
    destruct (numeral_byte_cases cNext) as (_ & _ & Hsig & _).
    apply N.eqb_neq in Hlast; rewrite sub_small in Hlast by lia.
    destruct (_ || _) eqn:Hsign; cursors; eapply IH; cbn [pointer].
    - unwrap; lia.
    - unwrap. eapply numeral_so_far_snoc; try eassumption; try tauto; try lia.
      destruct (Hsig eq_refl) as [_ ->]; reflexivity.
    - rewrite Hnext; lia.
    - rewrite Hnext; exact He. }
  apply ensures_if; intros Hdigit.
  { eapply lexNumeric_end_shape; cbn [pointer]; eassumption. }
  apply negb_false_iff in Hdigit.
  eapply IH; cbn [pointer]; rewrite Hnext; [lia|].
  eapply numeral_so_far_snoc; try eassumption; try tauto.
  destruct (Hdig Hdigit) as [_ ->]; reflexivity.
Qed.

Lemma lexNumeric_shape source ic :
  len source < max_len ->
  ensures (lexNumeric source ic) (numeral_match source ic).
Proof.
  intros Hlen; unfold lexNumeric.
  destruct (N.le_gt_cases (pointer ic) (len source)) as [Hp|Hp].
  - apply (lexNumeric_loop_shape source ic Hlen _ _ _ _ ""); [lia|].
    unfold numeral_so_far; rewrite slice_empty by trivial.
    repeat split; simpl; trivial; lia.
  - destruct (String.length source); cbn [lexNumeric_loop];
      rewrite (proj2 (N.ltb_ge _ _) (N.lt_le_incl _ _ Hp));
      unfold lexNumeric_end; rewrite N.eqb_refl;
      apply ensures_Done; intros H; discriminate H.
Qed.

(** ** [longestMatch] returns the longest option that matches *)

Lemma lowered_append a b : lowered (a ++ b) = lowered a ++ lowered b.
Proof.
  induction a as [|x a IH]; simpl; [reflexivity|].
  rewrite IH, append_assoc; reflexivity.
Qed.

Lemma lowered_snoc a c : lowered (a ++ String c "") = lowered a ++ ToLower_byte c.
Proof. rewrite lowered_append; simpl; rewrite append_empty_r; reflexivity. Qed.

Lemma lowered_ascii_length t :
  ascii_only (lowered t) = true -> String.length (lowered t) = String.length t.
Proof.
  induction t as [|c t IH]; simpl; [reflexivity|].
  rewrite ascii_only_append; intros H; apply andb_prop in H as [Hc Ht].
  rewrite length_append, (ToLower_byte_ascii_only c Hc), (IH Ht); reflexivity.
Qed.

Lemma substring_prefix s :
  forall n m m', (m <= m')%nat ->
    substring 0 m (substring n m' s) = substring n m s.
Proof.
  induction s as [|a s IH]; intros n m m' H.
  - destruct n, m, m'; reflexivity.
  - destruct n as [|n]; [|exact (IH n m m' H)].
    destruct m as [|m]; [destruct m'; reflexivity|].
    destruct m' as [|m']; [lia|].
    change (String a (substring 0 m (substring 0 m' s)) = String a (substring 0 m s)).
    rewrite (IH 0%nat m m'); [reflexivity|lia].
Qed.

Lemma substring_is_prefix b : forall k, exists r, b = substring 0 k b ++ r.
Proof.
  induction b as [|x b IH]; intros [|k]; simpl.
  - exists ""; reflexivity.
  - exists ""; reflexivity.
  - exists (String x b); reflexivity.
  - destruct (IH k) as [r Hr]; exists r; congruence.
Qed.

Lemma substring_append_exact a b : substring 0 (String.length a) (a ++ b) = a.
Proof.
  induction a as [|x a IH]; simpl; [apply substring_zero|congruence].
Qed.

Lemma slice_prefix s lo hi hi' a b :
  slice s lo hi = Done a -> slice s lo hi' = Done b -> hi <= hi' ->
  exists r, b = a ++ r.
Proof.
  unfold slice; intros Ha Hb Hle.
  destruct ((lo <=? hi) && (hi <=? len s)) eqn:Ea; [|discriminate Ha].
  destruct ((lo <=? hi') && (hi' <=? len s)) eqn:Eb; [|discriminate Hb].
  apply andb_prop in Ea as [Ea1 Ea2]; bools.
  inversion Ha; inversion Hb; subst a b.
  rewrite <- (substring_prefix s (N.to_nat lo) (N.to_nat (hi - lo)) (N.to_nat (hi' - lo)))
    by lia.
  apply substring_is_prefix.
Qed.

Lemma slice_whole o : slice o 0 (len o) = Done o.
Proof.
  unfold slice; rewrite N.leb_refl; cbn [N.leb andb].
  unfold len; rewrite N.sub_0_r, Nat2N.id; cbn [N.to_nat]; rewrite substring_whole.
  destruct (N.of_nat _); reflexivity.
Qed.

Lemma slice_append_exact a b : slice (a ++ b) 0 (len a) = Done a.
Proof.
  unfold slice; rewrite len_append.
  replace ((0 <=? len a) && (len a <=? len a + len b)) with true
    by (symmetry; apply andb_true_intro; split; apply N.leb_le; lia).
  unfold len; rewrite N.sub_0_r, Nat2N.id; cbn [N.to_nat].
  rewrite substring_append_exact; reflexivity.
Qed.

(** An option that is the folding of the source text at the cursor and
    has more than [n] bytes begins with the buffer of [n+1] bytes, which is
    no longer than the number of options. *)
Lemma folded_shares_prefix source ic options p t c o :
  forallb ascii_only options = true ->
  (forall o, In o options -> (String.length o <= List.length options)%nat) ->
  pointer ic <= p ->
  slice source (pointer ic) p = Done t ->
  index source p = Done c ->
  In o options ->
  folded source ic o ->
  p - pointer ic < len o ->
  slice o 0 (p - pointer ic + 1) = Done (lowered t ++ ToLower_byte c)
  /\ (String.length (lowered t ++ ToLower_byte c) <= List.length options)%nat.
Proof.
  intros Hasc Hshort Hp Ht Hc Hin (u & Hu & Hfold) Hn.
  rewrite forallb_forall in Hasc; pose proof (Hasc o Hin) as Ho.
  pose proof (slice_snoc _ _ _ _ _ Hp Ht Hc) as Ht'.
  pose proof (slice_len _ _ _ _ Ht') as Hlen'.
  assert (Hlu : String.length o = String.length u)
    by (rewrite <- Hfold in *; apply lowered_ascii_length, Ho).
  destruct (slice_prefix _ _ _ _ _ _ Ht' Hu) as [r Hr];
    [unfold len in *; lia|].
  assert (Ho' : o = (lowered t ++ ToLower_byte c) ++ lowered r)
    by (rewrite <- Hfold, Hr, lowered_append, lowered_snoc; reflexivity).
  assert (Ha : ascii_only (lowered t ++ ToLower_byte c) = true).
  { rewrite Ho', ascii_only_append in Ho; apply andb_prop in Ho as [Ho _]; exact Ho. }
  rewrite <- lowered_snoc in Ha |- *.
  pose proof (lowered_ascii_length _ Ha) as Hl.
  split.
  - replace (p - pointer ic + 1) with (len (lowered (t ++ String c "")))
      by (unfold len in *; rewrite Hl; lia).
    rewrite Ho', <- lowered_snoc; apply slice_append_exact.
  - specialize (Hshort o Hin); unfold len in *; lia.
Qed.

Section LongestMatch.

Variables (source : string) (ic : cursor) (options : list string).

Lemma match_inv_keep value n value' i skipList match_ :
  match_inv source ic options value n value' i skipList match_ ->
  (forall o, nth_error options i = Some o ->
             existsb (Nat.eqb i) skipList = false -> alive_ok value' (n + 1) o) ->
  match_inv source ic options value n value' (S i) skipList match_.
Proof.
  intros (Hal & Hdead & Hm & Hnd & Hb) Hi; repeat split; trivial.
  intros j o Hj Hs; specialize (Hal j o Hj Hs).
  destruct (j <? i)%nat eqn:E1, (j <? S i)%nat eqn:E2; trivial.
  - apply Nat.ltb_lt in E1; apply Nat.ltb_ge in E2; lia.
  - apply Nat.ltb_ge in E1; apply Nat.ltb_lt in E2.
    assert (j = i) by lia; subst j; auto.
Qed.

Lemma match_inv_kill value n value' i skipList match_ match' o :
  match_inv source ic options value n value' i skipList match_ ->
  nth_error options i = Some o ->
  existsb (Nat.eqb i) skipList = false ->
  (String.length match_ <= String.length match')%nat ->
  (match' = "" \/ (In match' options /\ folded source ic match')) ->
  (folded source ic o -> (String.length o <= String.length match')%nat) ->
  match_inv source ic options value n value' (S i) (skipList ++ [i])%list match'.
Proof.
  intros (Hal & Hdead & Hm & Hnd & Hb) Hi Hs Hle Hm' Ho; repeat split; trivial.
  - intros j o' Hj Hs'; rewrite existsb_app in Hs'.
    apply orb_false_elim in Hs' as [Hs1 Hs2]; simpl in Hs2.
    rewrite orb_false_r in Hs2; apply Nat.eqb_neq in Hs2.
    specialize (Hal j o' Hj Hs1).
    destruct (j <? i)%nat eqn:E1, (j <? S i)%nat eqn:E2; trivial;
      [apply Nat.ltb_lt in E1; apply Nat.ltb_ge in E2
      |apply Nat.ltb_ge in E1; apply Nat.ltb_lt in E2]; lia.
  - intros j o' Hj Hs' Hf; rewrite existsb_app in Hs'.
    apply orb_prop in Hs' as [Hs'|Hs'].
    + specialize (Hdead j o' Hj Hs' Hf); lia.
    + simpl in Hs'; rewrite orb_false_r in Hs'; apply Nat.eqb_eq in Hs'; subst j.
      rewrite Hi in Hj; inversion Hj; subst o'; auto.
  - apply NoDup_app; repeat split; trivial; [repeat constructor; simpl; tauto|].
    intros x Hx [E|[]]; subst x.
    assert (existsb (Nat.eqb i) skipList = true); [|congruence].
    apply existsb_exists; exists i; split; [exact Hx|apply Nat.eqb_refl].
  - intros j Hj; apply in_app_or in Hj as [Hj|[<-|[]]]; auto.
    apply nth_error_Some; congruence.
Qed.

Lemma longestMatch_options_inv value n value' :
  (forall o, In o options -> folded source ic o -> alive_ok value n o ->
             slice o 0 (n + 1) = Done value'
             /\ (String.length value' <= List.length options)%nat) ->
  folded source ic value' ->
  forall opts i skipList match_,
    (forall j o, nth_error opts j = Some o -> nth_error options (i + j) = Some o) ->
    match_inv source ic options value n value' i skipList match_ ->
    ensures (longestMatch_options value' (n + 1) (List.length options) i opts
               skipList match_)
            (fun r => match_inv source ic options value n value'
                        (i + List.length opts) (fst r) (snd r)).
Proof.
  intros Hkey Hfold.
  induction opts as [|option opts IH]; intros i skipList match_ Hsuf Hinv;
    cbn [longestMatch_options].
  { apply ensures_Done; cbn [fst snd List.length]; rewrite Nat.add_0_r; exact Hinv. }
  assert (Hi : nth_error options i = Some option)
    by (rewrite <- (Nat.add_0_r i); apply Hsuf; reflexivity).
  assert (Hsuf' : forall j o, nth_error opts j = Some o ->
                              nth_error options (S i + j) = Some o)
    by (intros j o Hj; replace (S i + j)%nat with (i + S j)%nat by lia;
        apply Hsuf; exact Hj).
  replace (i + List.length (option :: opts))%nat
    with (S i + List.length opts)%nat by (simpl; lia).
  destruct (existsb (Nat.eqb i) skipList) eqn:Eskip.
  { apply IH; trivial; apply match_inv_keep; trivial; congruence. }
  pose proof Hinv as (Hal & _ & Hm & _).
  pose proof (Hal i option Hi Eskip) as Halive; rewrite Nat.ltb_irrefl in Halive.
  destruct Halive as [Hpre Hn].
  destruct (String.eqb option value') eqn:Eopt.
  { apply String.eqb_eq in Eopt; subst value'.
    apply IH; trivial.
    destruct (String.length match_ <? String.length option)%nat eqn:El;
      [apply Nat.ltb_lt in El|apply Nat.ltb_ge in El];
      apply match_inv_kill with (match_ := match_) (o := option);
      trivial; intros; try lia.
    right; split; [eapply nth_error_In; exact Hi|exact Hfold]. }
  assert (Hret : returns (slice option 0 (n + 1)))
    by (apply slice_returns; lia).
  destruct Hret as [prefix Hprefix]; rewrite Hprefix; cbn [bind].
  destruct (_ || _) eqn:Ekill.
  { apply IH; trivial.
    apply match_inv_kill with (match_ := match_) (o := option); trivial.
    intros Hf; exfalso.
    destruct (Hkey option (nth_error_In _ _ Hi) Hf (conj Hpre Hn)) as [Hs Hl].
    assert (prefix = value') by congruence; subst prefix.
    rewrite String.eqb_refl in Ekill; cbn [negb] in Ekill; rewrite orb_false_r in Ekill.
    apply Nat.ltb_lt in Ekill; lia. }
  apply IH; trivial; apply match_inv_keep; trivial; intros o Ho _.
  rewrite Hi in Ho; inversion Ho; subst o; clear Ho.
  apply orb_false_elim in Ekill as [_ Eshare].
  apply negb_false_iff, String.eqb_eq in Eshare; subst prefix.
  split; [exact Hprefix|].
  destruct (N.eq_dec (n + 1) (len option)) as [E|E]; [|lia].
  rewrite E, slice_whole in Hprefix; inversion Hprefix; subst value'.
  rewrite String.eqb_refl in Eopt; discriminate Eopt.
Qed.

Lemma match_inv_next value n value' other skipList match_ :
  match_inv source ic options value n value' (List.length options) skipList match_ ->
  match_inv source ic options value' (n + 1) other 0 skipList match_.
Proof.
  intros (Hal & Hdead & Hm & Hnd & Hb); split; [|repeat split; trivial].
  intros j o Hj Hs; specialize (Hal j o Hj Hs).
  assert (Hlt : (j < List.length options)%nat) by (apply nth_error_Some; congruence).
  apply Nat.ltb_lt in Hlt; rewrite Hlt in Hal; exact Hal.
Qed.

(** A skip list as long as the list of options holds every index. *)
Lemma skipList_full (skipList : list nat) j :
  NoDup skipList ->
  (forall x, In x skipList -> (x < List.length options)%nat) ->
  List.length skipList = List.length options ->
  (j < List.length options)%nat ->
  existsb (Nat.eqb j) skipList = true.
Proof.
  intros Hnd Hb Hlen Hj.
  assert (Hincl : incl (seq 0 (List.length options)) skipList).
  { apply NoDup_length_incl; trivial.
    - rewrite length_seq; lia.
    - intros x Hx; apply in_seq; specialize (Hb x Hx); lia. }
  apply existsb_exists; exists j; split; [|apply Nat.eqb_refl].
  apply Hincl, in_seq; lia.
Qed.

Hypothesis Hlen : len source < max_len.
Hypothesis Hasc : forallb ascii_only options = true.
Hypothesis Hshort :
  forall o, In o options -> (String.length o <= List.length options)%nat.

Lemma folded_len o :
  In o options -> folded source ic o -> pointer ic + len o <= len source.
Proof.
  intros Hin (t & Ht & Hf).
  rewrite forallb_forall in Hasc; pose proof (Hasc o Hin) as Ho.
  rewrite <- Hf in Ho |- *; unfold len; rewrite (lowered_ascii_length _ Ho).
  unfold slice in Ht; destruct ((_ <=? _) && (_ <=? _)) eqn:E; [|discriminate Ht].
  apply andb_prop in E as [_ E]; apply N.leb_le in E; exact E.
Qed.

Lemma longestMatch_loop_inv :
  forall fuel cur value skipList match_ t other,
    pointer ic <= pointer cur <= len source ->
    slice source (pointer ic) (pointer cur) = Done t ->
    value = lowered t ->
    match_inv source ic options value (pointer cur - pointer ic) other 0
              skipList match_ ->
    ensures (longestMatch_loop fuel source ic cur options value skipList match_)
            (longest_folded source ic options).
Proof.
  unfold max_len in Hlen.
  induction fuel as [|fuel IH]; intros cur value skipList match_ t other Hp Ht Hv Hinv;
    cbn [longestMatch_loop]; (apply ensures_if; intros Hlt;
      [|apply N.ltb_ge in Hlt; apply ensures_Done;
        destruct Hinv as (Hal & Hdead & Hm & _); split; trivial;
        intros o Hin Hf; destruct (In_nth_error _ _ Hin) as [j Hj];
        destruct (existsb (Nat.eqb j) skipList) eqn:Es; [eauto|];
        destruct (Hal j o Hj Es) as [_ Hn]; cbn [Nat.ltb Nat.leb] in Hn;
        pose proof (folded_len o Hin Hf); lia]).
  { apply ensures_Timeout. }
  apply N.ltb_lt in Hlt.
  apply ensures_bind; intros c Hc; cbv zeta.
  replace (Uint.sub (pointer (pointer_incr cur)) (pointer ic))
    with (pointer cur - pointer ic + 1) by (cursors; unwrap; lia).
  assert (Ht' := slice_snoc _ _ _ _ _ (proj1 Hp) Ht Hc).
  assert (Hfold : folded source ic (value ++ ToLower_byte c)).
  { exists (t ++ String c ""); split; [|subst value; apply lowered_snoc].
    rewrite (slice_len _ _ _ _ Ht').
    replace (pointer ic + (pointer cur + 1 - pointer ic)) with (pointer cur + 1) by lia.
    exact Ht'. }
  apply ensures_bind; intros [skipList' match'] Hpass.
  eapply (longestMatch_options_inv value (pointer cur - pointer ic)
            (value ++ ToLower_byte c)) in Hpass; trivial.
  - cbn [fst snd] in Hpass.
    apply ensures_if; intros Hfull.
    + apply Nat.eqb_eq in Hfull; apply ensures_Done.
      destruct Hpass as (_ & Hdead & Hm & Hnd & Hb); split; trivial.
      intros o Hin Hf; destruct (In_nth_error _ _ Hin) as [j Hj].
      apply (Hdead j o Hj); trivial.
      apply skipList_full; trivial; apply nth_error_Some; congruence.
    + apply (IH _ _ _ _ (t ++ String c "") value); cursors; unwrap.
      * lia.
      * exact Ht'.
      * subst value; symmetry; apply lowered_snoc.
      * replace (pointer cur + 1 - pointer ic) with (pointer cur - pointer ic + 1)
          by lia.
        eapply match_inv_next; exact Hpass.
  - intros o Hin Hf [_ Hn]; subst value.
    eapply folded_shares_prefix; eauto; lia.
Qed.

End LongestMatch.

Lemma longestMatch_longest :
  forall (source : string) (ic : cursor) (options : list string),
    len source < max_len ->
    pointer ic <= len source ->
    forallb ascii_only options = true ->
    (forall o, In o options ->
               (o =? "")%string = false
               /\ (String.length o <= List.length options)%nat) ->
    exists m,
      longestMatch source ic options = Done m
      /\ (m = "" \/ (In m options /\ folded source ic m))
      /\ (forall o, In o options -> folded source ic o ->
                    (String.length o <= String.length m)%nat).
Proof.
  intros source ic options Hlen Hp Hasc Hopts.
  destruct (longestMatch_returns source ic options Hlen Hp) as [m Hm];
    [intros o Ho; apply Hopts, Ho|].
  exists m; split; [exact Hm|].
  refine (longestMatch_loop_inv source ic options Hlen Hasc _ _ ic "" [] "" "" ""
            _ _ _ _ m Hm).
  - intros o Ho; apply Hopts, Ho.
  - lia.
  - apply slice_empty, Hp.
  - reflexivity.
  - rewrite N.sub_diag; split; [|split; [|split; [|split]]].
    + intros j o Hj _; cbn [Nat.ltb Nat.leb]; split; [apply slice_empty; lia|].
      apply nth_error_In, Hopts in Hj as [Hj _]; apply len_nonempty in Hj; lia.
    + intros j o _ Hs; discriminate Hs.
    + left; reflexivity.
    + constructor.
    + intros j [].
Qed.

(** ** Keywords *)

Lemma ToLower_byte_ascii c :
  ascii_only (ToLower_byte c) = true -> ToLower_byte c = String (lower_ascii c) "".
Proof.
  destruct c as [[] [] [] [] [] [] [] []]; vm_compute; intros H;
    first [reflexivity | discriminate H].
Qed.

Lemma lower_ascii_ascii c :
  (N_of_ascii (lower_ascii c) <? 128) = true ->
  ToLower_byte c = String (lower_ascii c) "".
Proof.
  destruct c as [[] [] [] [] [] [] [] []]; vm_compute; intros H;
    first [reflexivity | discriminate H].
Qed.

Lemma lowered_ascii_ToLower t : ascii_only (lowered t) = true -> lowered t = ToLower t.
Proof.
  induction t as [|c t IH]; simpl; [reflexivity|].
  rewrite ascii_only_append; intros H; apply andb_prop in H as [Hc Ht].
  rewrite (ToLower_byte_ascii c Hc), (IH Ht); reflexivity.
Qed.

Lemma ToLower_ascii_lowered t : ascii_only (ToLower t) = true -> lowered t = ToLower t.
Proof.
  induction t as [|c t IH]; simpl; [reflexivity|].
  intros H; apply andb_prop in H as [Hc Ht].
  rewrite (lower_ascii_ascii c Hc), (IH Ht); reflexivity.
Qed.

Lemma ToLower_length t : String.length (ToLower t) = String.length t.
Proof. induction t as [|c t IH]; simpl; congruence. Qed.

Lemma folded_spells source ic k :
  ascii_only k = true -> (folded source ic k <-> spells source ic k).
Proof.
  intros Hk; split; intros (t & Ht & Hf); exists t.
  - rewrite <- Hf in Hk |- *.
    rewrite <- (lowered_ascii_ToLower t Hk); split; [|reflexivity].
    unfold len in *; rewrite (lowered_ascii_length t Hk); exact Ht.
  - rewrite <- Hf in Hk; rewrite (ToLower_ascii_lowered t Hk); split; [|exact Hf].
    pose proof (slice_len _ _ _ _ Ht) as Hl.
    replace (len t) with (len k); [exact Ht|lia].
Qed.

Lemma lexKeyword_longest :
  forall (source : string) (ic : cursor),
    len source < max_len ->
    pointer ic <= len source ->
    exists m,
      lexKeyword source ic = Done (lexKeyword_on ic m)
      /\ (m = "" \/ (In m keywords /\ spells source ic m))
      /\ (forall k, In k keywords -> spells source ic k ->
                    (String.length k <= String.length m)%nat).
Proof.
  intros source ic Hlen Hp.
  assert (Hasc : forallb ascii_only keywords = true) by reflexivity.
  destruct (longestMatch_longest source ic keywords Hlen Hp Hasc)
    as (m & Hrun & Hm & Hmax).
  { intros o Ho; unfold keywords in Ho; simpl in Ho.
    repeat (destruct Ho as [<-|Ho]; [split; [reflexivity|simpl; lia]|]); destruct Ho. }
  rewrite forallb_forall in Hasc.
  assert (Hm' : m = "" \/ (In m keywords /\ spells source ic m)).
  { destruct Hm as [->|[Hin Hf]]; [left; reflexivity|right; split; trivial].
    apply folded_spells; auto. }
  exists m; split; [|split; trivial].
  - unfold lexKeyword, lexKeyword_on; rewrite Hrun; cbn [bind].
    destruct (String.eqb m "") eqn:Em; [reflexivity|].
    destruct Hm' as [->|[_ (t & Ht & _)]]; [discriminate Em|].
    unfold slice in Ht; destruct ((_ <=? _) && (_ <=? _)) eqn:E; [|discriminate Ht].
    apply andb_prop in E as [_ E]; apply N.leb_le in E; unfold max_len in Hlen.
    unfold cursor_at; cursors; unwrap; reflexivity.
  - intros k Hk Hs; apply Hmax; trivial; apply folded_spells; auto.
Qed.

(** ** A source with a quote is never lexed *)

Lemma forall_bytes_get f v :
  forall i c, forall_bytes f v = true -> String.get i v = Some c -> f c = true.
Proof.
  induction v as [|a v IH]; intros [|i] c H Hg; simpl in *; try discriminate;
    apply andb_prop in H as [Ha Hv].
  - inversion Hg; subst; exact Ha.
  - eauto.
Qed.

Lemma slice_forall f source lo hi v p c :
  slice source lo hi = Done v ->
  forall_bytes f v = true ->
  lo <= p < hi ->
  index source p = Done c ->
  f c = true.
Proof.
  unfold slice; intros Hv Hall Hp Hc.
  destruct ((lo <=? hi) && (hi <=? len source)); [|discriminate Hv].
  inversion Hv; subst v; clear Hv.
  apply (forall_bytes_get f _ (N.to_nat (p - lo)) c Hall).
  rewrite substring_correct1 by lia.
  replace (N.to_nat (p - lo) + N.to_nat lo)%nat with (N.to_nat p) by lia.
  apply index_get, Hc.
Qed.

Lemma passed_no_quote source ic (tok : option Token) cur f v :
  slice source (pointer ic) (pointer cur) = Done v ->
  forall_bytes f v = true ->
  (forall c, f c = true -> is_quote c = false) ->
  no_quote_passed source ic (tok, cur, true).
Proof.
  intros Hv Hall Hf _; right; cbn [fst snd]; intros p c Hp Hc.
  apply Hf; exact (slice_forall f _ _ _ _ _ _ Hv Hall Hp Hc).
Qed.

Lemma ToLower_not_quote t :
  forall_bytes not_quote (ToLower t) = true -> forall_bytes not_quote t = true.
Proof.
  induction t as [|c t IH]; simpl; [reflexivity|].
  intros H; apply andb_prop in H as [Hc Ht]; rewrite (IH Ht), andb_true_r.
  revert Hc; clear; destruct c as [[] [] [] [] [] [] [] []]; vm_compute; auto.
Qed.

Lemma lexKeyword_no_quote source ic :
  len source < max_len -> pointer ic <= len source ->
  ensures (lexKeyword source ic) (no_quote_passed source ic).
Proof.
  intros Hlen Hp x Hx.
  destruct (lexKeyword_longest source ic Hlen Hp) as (m & Hrun & Hm & _).
  rewrite Hrun in Hx; inversion Hx; subst x; clear Hx.
  unfold lexKeyword_on; destruct (String.eqb m "") eqn:Em; [intros H; discriminate H|].
  destruct Hm as [->|[Hin (t & Ht & Hl)]]; [discriminate Em|].
  apply (passed_no_quote _ _ _ _ not_quote t); cbn [pointer cursor_at]; trivial.
  - apply ToLower_not_quote; rewrite Hl.
    revert Hin; clear; unfold keywords; simpl; intros H.
    repeat (destruct H as [<-|H]; [reflexivity|]); destruct H.
  - intros c Hc; apply negb_true_iff, Hc.
Qed.

Lemma lexSymbol_no_quote source ic :
  len source < max_len ->
  ensures (lexSymbol source ic) (no_quote_passed source ic).
Proof.
  intros Hlen x Hx Hok; right; intros p c Hp Hc.
  destruct (index source (pointer ic)) as [b| |] eqn:Hb;
    try (unfold lexSymbol in Hx; rewrite Hb in Hx; discriminate Hx).
  rewrite (lexSymbol_by_byte _ _ _ Hlen Hb) in Hx; inversion Hx; subst x; clear Hx.
  assert (pointer (snd (fst (lexSymbol_at ic b))) = pointer ic + 1
          /\ is_quote b = false) as [Hnext Hq].
  { revert Hok; clear; unfold lexSymbol_at.
    destruct b as [[] [] [] [] [] [] [] []]; vm_compute is_symbol_byte;
      cbn [Ascii.eqb Bool.eqb andb orb fst snd pointer cursor_at]; intros H;
      first [discriminate H | split; reflexivity]. }
  rewrite Hnext in Hp; assert (p = pointer ic) by lia; subst p; congruence.
Qed.

Lemma lexNumeric_no_quote source ic :
  len source < max_len ->
  ensures (lexNumeric source ic) (no_quote_passed source ic).
Proof.
  intros Hlen [[tok cur] [|]] Hx; [|intros H; discriminate H].
  destruct (lexNumeric_shape source ic Hlen _ Hx eq_refl)
    as (v & c0 & _ & Hv & _ & Hall & _); cbn [fst snd] in *.
  apply (passed_no_quote _ _ _ _ is_numeral_byte v); trivial.
  clear; intros c; destruct c as [[] [] [] [] [] [] [] []]; vm_compute;
    intros H; first [reflexivity | discriminate H].
Qed.

Lemma lexString_no_quote source ic :
  len source < max_len ->
  ensures (lexString source ic) (no_quote_passed source ic).
Proof.
  intros Hlen x Hx Hok; left; exists "'"%char; split; [reflexivity|].
  destruct (lexCharacterDelimited_raw source ic _ Hlen x Hx Hok)
    as (v & _ & _ & _ & _ & Hc & _); exact Hc.
Qed.

Lemma lexIdentifier_no_quote source ic :
  len source < max_len ->
  ensures (lexIdentifier source ic) (no_quote_passed source ic).
Proof.
  intros Hlen x Hx Hok.
  pose proof Hx as Hrun; unfold lexIdentifier in Hx.
  destruct (lexCharacterDelimited source ic "034") as [[[tok cur] ok]| |] eqn:Hd;
    cbn [bind] in Hx; try discriminate Hx.
  destruct ok.
  - inversion Hx; subst x; left; exists "034"%char; split; [reflexivity|].
    destruct (lexCharacterDelimited_raw source ic _ Hlen _ Hd eq_refl)
      as (v & _ & _ & _ & _ & Hc & _); exact Hc.
  - destruct (index source (pointer ic)) as [c| |] eqn:Hc; cbn [bind] in Hx;
      try discriminate Hx.
    destruct (isAlpha c) eqn:Ha; cbn [negb] in Hx;
      [|inversion Hx; subst x; discriminate Hok].
    destruct (lexIdentifier_bare source ic c Hlen Hc Ha)
      as (y & Hy & v & cur' & -> & Hv & Hall & _).
    assert (x = (Some {| Value := ToLower v; Kind := IdentifierKind; Loc := loc ic |},
                 cur', true)) by congruence; subst x.
    revert Hok; apply (passed_no_quote _ _ _ _ is_ident_byte v); trivial.
    clear; intros b; destruct b as [[] [] [] [] [] [] [] []]; vm_compute;
      intros H; first [reflexivity | discriminate H].
Qed.

Lemma lexers_no_quote source cur :
  len source < max_len -> pointer cur <= len source ->
  forall l, In l lexers -> ensures (l source cur) (no_quote_passed source cur).
Proof.
  intros Hlen Hp l Hin; unfold lexers in Hin; simpl in Hin.
  destruct Hin as [<-|[<-|[<-|[<-|[<-|[]]]]]].
  - apply lexKeyword_no_quote; assumption.
  - apply lexSymbol_no_quote, Hlen.
  - apply lexNumeric_no_quote, Hlen.
  - apply lexString_no_quote, Hlen.
  - apply lexIdentifier_no_quote, Hlen.
Qed.

Lemma lex_loop_quote_ahead source q d :
  len source < max_len ->
  index source q = Done d ->
  is_quote d = true ->
  forall fuel tokens cur,
    good source cur ->
    pointer cur <= q ->
    ensures (lex_loop fuel source tokens cur) (fun r => forall ts, r <> Tokens ts).
Proof.
  intros Hlen Hq Hd; induction fuel as [|fuel IH]; intros tokens cur Hg Hp;
    cbn [lex_loop];
    rewrite (proj2 (N.ltb_lt _ _)
               (N.le_lt_trans _ _ _ Hp (index_Done_lt _ _ _ Hq))).
  { apply ensures_Timeout. }
  apply ensures_bind; intros r Hr.
  assert (Hboth : forall l, In l lexers ->
            ensures (l source cur)
                    (fun x => advances source cur x /\ no_quote_passed source cur x))
    by (intros l Hl; apply ensures_and;
        [apply lexers_advance|apply lexers_no_quote]; trivial; apply Hg).
  apply (try_lexers_ensures _ _ _ _ Hboth) in Hr.
  destruct r as [[token newCursor]|]; [|apply ensures_Done; discriminate].
  destruct (Hr token newCursor eq_refl) as [Hadv Hpass].
  destruct (Hadv eq_refl) as (Hlt & Hg' & _); cbn [fst snd] in *.
  destruct (Hpass eq_refl) as [(d' & Hq' & Hd')|Hnone]; cbn [fst snd] in *.
  - exact (lex_loop_stuck source Hlen fuel _ _ d' Hg' Hq' Hd').
  - apply IH; trivial.
    destruct (N.le_gt_cases (pointer newCursor) q) as [Hle|Hgt]; trivial.
    rewrite (Hnone q d) in Hd; [discriminate Hd|lia|exact Hq].
Qed.

(** X13: on a source that contains a single or a double quote, [lex]
    returns an error. *)
Theorem lex_fails_on_quote :
  forall (source : string) (q : N) (d : ascii),
    len source < max_len ->
    index source q = Done d ->
    is_quote d = true ->
    exists message, lex source = Done (LexError message).
Proof.
  intros source q d Hlen Hq Hd.
  destruct (lex_terminates source Hlen) as [[ts|message] Hrun]; [|eauto].
  exfalso.
  refine (lex_loop_quote_ahead source q d Hlen Hq Hd _ [] cursor0
            (good_cursor0 source) _ _ Hrun ts eq_refl).
  cbn [pointer cursor0]; lia.
Qed.

(** ** An empty option *)

Lemma ToLower_byte_not_empty c : ToLower_byte c <> "".
Proof. unfold ToLower_byte, utf8_latin1; destruct (_ <? _); discriminate. Qed.

Lemma longestMatch_options_empty_option value total :
  value <> "" ->
  forall options i skipList match_,
    In "" options ->
    (forall x, In x skipList -> (x < i)%nat) ->
    longestMatch_options value 1 total i options skipList match_ = Panic.
Proof.
  intros Hv; induction options as [|option options IH];
    intros i skipList match_ Hin Hb; [destruct Hin|].
  cbn [longestMatch_options].
  assert (Hs : existsb (Nat.eqb i) skipList = false).
  { destruct (existsb (Nat.eqb i) skipList) eqn:E; trivial.
    apply existsb_exists in E as (x & Hx & E); apply Nat.eqb_eq in E; subst x.
    specialize (Hb i Hx); lia. }
  assert (Hb' : forall x, In x (skipList ++ [i])%list -> (x < S i)%nat).
  { intros x Hx; apply in_app_or in Hx as [Hx|[<-|[]]]; [specialize (Hb x Hx)|]; lia. }
  assert (Hb'' : forall x, In x skipList -> (x < S i)%nat)
    by (intros x Hx; specialize (Hb x Hx); lia).
  rewrite Hs; destruct (String.eqb option value) eqn:Eo.
  { apply String.eqb_eq in Eo; subst option.
    destruct Hin as [Hin|Hin]; [congruence|]; apply IH; trivial. }
  destruct Hin as [->|Hin]; [reflexivity|].
  destruct (slice option 0 1) as [prefix| |] eqn:Ep; cbn [bind]; trivial.
  - destruct (_ || _); apply IH; trivial.
  - unfold slice in Ep; destruct (_ && _); discriminate Ep.
Qed.

(** X4: [longestMatch] panics when an option is the empty string and the
    cursor is inside the source. *)
Theorem longestMatch_empty_option_panics :
  forall (source : string) (ic : cursor) (options : list string),
    len source < max_len ->
    pointer ic < len source ->
    In "" options ->
    longestMatch source ic options = Panic.
Proof.
  intros source ic options Hlen Hp Hin; unfold longestMatch.
  destruct (index_returns source (pointer ic) Hp) as [c Hc].
  destruct (length_source_pos _ _ _ Hc) as [n ->].
  rewrite (longestMatch_loop_unfold _ _ _ _ _ _ _ _ c Hc).
  replace (Uint.sub (pointer (pointer_incr ic)) (pointer ic)) with 1
    by (unfold max_len in Hlen; cursors; unwrap; lia).
  rewrite longestMatch_options_empty_option; trivial.
  - cbn [append]; apply ToLower_byte_not_empty.
  - intros x [].
Qed.

Lemma longestMatch_empty_option_panics_witness :
  len "select" < max_len
  /\ pointer cursor0 < len "select"
  /\ In "" ["from"; ""]
  /\ longestMatch "select" cursor0 ["from"; ""] = Panic.
Proof.
  assert (H1 : len "select" < max_len) by (vm_compute; reflexivity).
  assert (H2 : pointer cursor0 < len "select") by (vm_compute; reflexivity).
  assert (H3 : In "" ["from"; ""]) by (right; left; reflexivity).
  repeat (split; [assumption|]).
  exact (longestMatch_empty_option_panics _ _ _ H1 H2 H3).
Defined.

(** ** Summary of the sub-lexers *)

(** X1: on every source that a Go string can hold, [lex] returns: it does
    not panic and does not loop. *)
Theorem lex_never_panics :
  forall source : string,
    len source < max_len -> exists r, lex source = Done r.
Proof. exact lex_terminates. Qed.

Lemma lex_never_panics_witness :
  len "select * from t;" < max_len
  /\ exists r, lex "select * from t;" = Done r.
Proof.
  assert (H : len "select * from t;" < max_len) by (vm_compute; reflexivity).
  split; [exact H|exact (lex_never_panics _ H)].
Defined.

(** X2: a sub-lexer that matches at a cursor of [lex] returns a cursor that
    is further in the source and not beyond its end, at a location that is
    not before, with counters that still satisfy the invariant of the
    cursor; its token, if any, is stamped with the location it started at. *)
Theorem sublexer_match_advances :
  forall (l : lexer) (source : string) (ic : cursor) (tok : option Token) (cur : cursor),
    In l lexers ->
    len source < max_len ->
    good source ic ->
    l source ic = Done (tok, cur, true) ->
    pointer ic < pointer cur
    /\ good source cur
    /\ loc_le (loc ic) (loc cur)
    /\ (forall t, tok = Some t -> Loc t = loc ic).
Proof.
  intros l source ic tok cur Hin Hlen Hg H.
  exact (lexers_advance source ic Hlen Hg l Hin _ H eq_refl).
Qed.

Lemma sublexer_match_advances_witness :
  In lexNumeric lexers
  /\ len "12;" < max_len
  /\ good "12;" cursor0
  /\ lexNumeric "12;" cursor0
     = Done (Some (token "12" NumericKind 0 0), cursor_at 2 0 3, true)
  /\ (pointer cursor0 < pointer (cursor_at 2 0 3)
      /\ good "12;" (cursor_at 2 0 3)
      /\ loc_le (loc cursor0) (loc (cursor_at 2 0 3))
      /\ (forall t, Some (token "12" NumericKind 0 0) = Some t -> Loc t = loc cursor0)).
Proof.
  assert (H1 : In lexNumeric lexers) by (right; right; left; reflexivity).
  assert (H2 : len "12;" < max_len) by (vm_compute; reflexivity).
  assert (H3 : good "12;" cursor0) by apply good_cursor0.
  assert (H4 : lexNumeric "12;" cursor0
               = Done (Some (token "12" NumericKind 0 0), cursor_at 2 0 3, true))
    by (vm_compute; reflexivity).
  exact (conj H1 (conj H2 (conj H3 (conj H4 (sublexer_match_advances _ _ _ _ _ H1 H2 H3 H4))))).
Defined.

(** X3: [longestMatch] does not panic when no option is the empty string. *)
Theorem longestMatch_no_panic :
  forall (source : string) (ic : cursor) (options : list string),
    len source < max_len ->
    pointer ic <= len source ->
    (forall o, In o options -> (o =? "")%string = false) ->
    exists m, longestMatch source ic options = Done m.
Proof. exact longestMatch_returns. Qed.

Lemma keywords_not_empty : forall o, In o keywords -> (o =? "")%string = false.
Proof.
  intros o Ho; unfold keywords in Ho; simpl in Ho.
  repeat (destruct Ho as [<-|Ho]; [reflexivity|]); destruct Ho.
Qed.

Lemma longestMatch_no_panic_witness :
  len "INTO x" < max_len
  /\ pointer cursor0 <= len "INTO x"
  /\ (forall o, In o keywords -> (o =? "")%string = false)
  /\ exists m, longestMatch "INTO x" cursor0 keywords = Done m.
Proof.
  assert (H1 : len "INTO x" < max_len) by (vm_compute; reflexivity).
  assert (H2 : pointer cursor0 <= len "INTO x") by (vm_compute; discriminate).
  exact (conj H1 (conj H2 (conj keywords_not_empty (longestMatch_no_panic _ _ _ H1 H2 keywords_not_empty)))).
Defined.

(** X5: for options that are ASCII, not empty and no longer than their
    number, [longestMatch] returns the longest option that is the case
    folding of the source text at the cursor, or the empty string when there
    is none. *)
Theorem longestMatch_returns_longest :
  forall (source : string) (ic : cursor) (options : list string),
    len source < max_len ->
    pointer ic <= len source ->
    forallb ascii_only options = true ->
    (forall o, In o options ->
               (o =? "")%string = false
               /\ (String.length o <= List.length options)%nat) ->
    exists m,
      longestMatch source ic options = Done m
      /\ (m = "" \/ (In m options /\ folded source ic m))
      /\ (forall o, In o options -> folded source ic o ->
                    (String.length o <= String.length m)%nat).
Proof. exact longestMatch_longest. Qed.

Lemma keywords_short :
  forall o, In o keywords ->
            (o =? "")%string = false /\ (String.length o <= List.length keywords)%nat.
Proof.
  intros o Ho; unfold keywords in Ho; simpl in Ho.
  repeat (destruct Ho as [<-|Ho]; [split; [reflexivity|simpl; lia]|]); destruct Ho.
Qed.

Lemma longestMatch_returns_longest_witness :
  len "INTO x" < max_len
  /\ pointer cursor0 <= len "INTO x"
  /\ forallb ascii_only keywords = true
  /\ (forall o, In o keywords ->
                (o =? "")%string = false
                /\ (String.length o <= List.length keywords)%nat)
  /\ exists m,
      longestMatch "INTO x" cursor0 keywords = Done m
      /\ (m = "" \/ (In m keywords /\ folded "INTO x" cursor0 m))
      /\ (forall o, In o keywords -> folded "INTO x" cursor0 o ->
                    (String.length o <= String.length m)%nat).
Proof.
  assert (H1 : len "INTO x" < max_len) by (vm_compute; reflexivity).
  assert (H2 : pointer cursor0 <= len "INTO x") by (vm_compute; discriminate).
  assert (H3 : forallb ascii_only keywords = true) by reflexivity.
  exact (conj H1 (conj H2 (conj H3 (conj keywords_short (longestMatch_returns_longest _ _ _ H1 H2 H3 keywords_short))))).
Defined.

(** X6: [lexKeyword] matches the longest keyword of its list that the
    source spells at the cursor, in upper or lower case letters, and does
    not match when there is none. *)
Theorem lexKeyword_longest_keyword :
  forall (source : string) (ic : cursor),
    len source < max_len ->
    pointer ic <= len source ->
    exists m,
      lexKeyword source ic = Done (lexKeyword_on ic m)
      /\ (m = "" \/ (In m keywords /\ spells source ic m))
      /\ (forall k, In k keywords -> spells source ic k ->
                    (String.length k <= String.length m)%nat).
Proof. exact lexKeyword_longest. Qed.

Lemma lexKeyword_longest_keyword_witness :
  len "x Into y" < max_len
  /\ pointer (cursor_at 2 0 2) <= len "x Into y"
  /\ exists m,
      lexKeyword "x Into y" (cursor_at 2 0 2) = Done (lexKeyword_on (cursor_at 2 0 2) m)
      /\ (m = "" \/ (In m keywords /\ spells "x Into y" (cursor_at 2 0 2) m))
      /\ (forall k, In k keywords -> spells "x Into y" (cursor_at 2 0 2) k ->
                    (String.length k <= String.length m)%nat).
Proof.
  assert (H1 : len "x Into y" < max_len) by (vm_compute; reflexivity).
  assert (H2 : pointer (cursor_at 2 0 2) <= len "x Into y") by (vm_compute; discriminate).
  exact (conj H1 (conj H2 (lexKeyword_longest_keyword _ _ H1 H2))).
Defined.

(** X7: what [lexSymbol] returns is decided by the byte at the cursor: a
    newline moves to the next line, a tab or a space to the next column, a
    symbol gives a Symbol token of that one byte, and nothing else
    matches. *)
Theorem lexSymbol_decides_on_one_byte :
  forall (source : string) (ic : cursor) (c : ascii),
    len source < max_len ->
    index source (pointer ic) = Done c ->
    lexSymbol source ic = Done (lexSymbol_at ic c).
Proof. exact lexSymbol_by_byte. Qed.

Lemma lexSymbol_decides_on_one_byte_witness :
  len two_line_source < max_len
  /\ index two_line_source (pointer (cursor_at 9 0 9)) = Done "010"%char
  /\ lexSymbol two_line_source (cursor_at 9 0 9)
     = Done (lexSymbol_at (cursor_at 9 0 9) "010").
Proof.
  assert (H1 : len two_line_source < max_len) by (vm_compute; reflexivity).
  assert (H2 : index two_line_source (pointer (cursor_at 9 0 9)) = Done "010"%char)
    by reflexivity.
  exact (conj H1 (conj H2 (lexSymbol_decides_on_one_byte _ _ _ H1 H2))).
Defined.

Lemma lex_symbols_and_blanks_witness :
  len symbols_source < max_len
  /\ forall_bytes (fun c => is_blank c || is_symbol_byte c) symbols_source = true
  /\ exists tokens,
      lex symbols_source = Done (Tokens tokens)
      /\ map kinded tokens
         = map symbol_of (filter is_symbol_byte (list_ascii_of_string symbols_source)).
Proof.
  assert (H1 : len symbols_source < max_len) by (vm_compute; reflexivity).
  assert (H2 : forall_bytes (fun c => is_blank c || is_symbol_byte c) symbols_source
               = true) by reflexivity.
  exact (conj H1 (conj H2 (lex_symbols_and_blanks _ H1 H2))).
Defined.

(** X9: when [lexCharacterDelimited] matches, the cursor it was given and
    the cursor it returns are both on a delimiter, the second one is not
    followed by a delimiter, and the value of the token, of kind String, is
    the source text between the two, byte for byte. *)
Theorem lexCharacterDelimited_value_is_raw_text :
  forall (source : string) (ic : cursor) (delimiter : ascii)
         (tok : option Token) (cur : cursor),
    len source < max_len ->
    lexCharacterDelimited source ic delimiter = Done (tok, cur, true) ->
    exists value,
      tok = Some {| Value := value; Kind := StringKind; Loc := loc ic |}
      /\ pointer ic < pointer cur
      /\ slice source (pointer ic + 1) (pointer cur) = Done value
      /\ index source (pointer ic) = Done delimiter
      /\ index source (pointer cur) = Done delimiter
      /\ index source (pointer cur + 1) <> Done delimiter.
Proof.
  intros source ic delimiter tok cur Hlen H.
  exact (lexCharacterDelimited_raw source ic delimiter Hlen _ H eq_refl).
Qed.

Lemma lexCharacterDelimited_value_is_raw_text_witness :
  len "'ab''c' x" < max_len
  /\ lexCharacterDelimited "'ab''c' x" cursor0 "'"
     = Done (Some (token "ab''c" StringKind 0 0), cursor_at 6 0 6, true)
  /\ exists value,
      Some (token "ab''c" StringKind 0 0)
      = Some {| Value := value; Kind := StringKind; Loc := loc cursor0 |}
      /\ pointer cursor0 < pointer (cursor_at 6 0 6)
      /\ slice "'ab''c' x" (pointer cursor0 + 1) (pointer (cursor_at 6 0 6)) = Done value
      /\ index "'ab''c' x" (pointer cursor0) = Done "'"%char
      /\ index "'ab''c' x" (pointer (cursor_at 6 0 6)) = Done "'"%char
      /\ index "'ab''c' x" (pointer (cursor_at 6 0 6) + 1) <> Done "'"%char.
Proof.
  assert (H1 : len "'ab''c' x" < max_len) by (vm_compute; reflexivity).
  assert (H2 : lexCharacterDelimited "'ab''c' x" cursor0 "'"
               = Done (Some (token "ab''c" StringKind 0 0), cursor_at 6 0 6, true))
    by (vm_compute; reflexivity).
  exact (conj H1 (conj H2 (lexCharacterDelimited_value_is_raw_text _ _ _ _ _ H1 H2))).
Defined.

(** X10: a numeral that [lexNumeric] matches is the source text between the
    two cursors; it is not empty, it begins with a digit or a point, all its
    bytes are digits, points, [e] or signs, and it has at most one [e]. *)
Theorem lexNumeric_numeral_shape :
  forall (source : string) (ic : cursor) (tok : option Token) (cur : cursor),
    len source < max_len ->
    lexNumeric source ic = Done (tok, cur, true) ->
    exists value c0,
      tok = Some {| Value := value; Kind := NumericKind; Loc := loc ic |}
      /\ slice source (pointer ic) (pointer cur) = Done value
      /\ pointer ic < pointer cur
      /\ forall_bytes is_numeral_byte value = true
      /\ (count_byte "e" value <= 1)%nat
      /\ index source (pointer ic) = Done c0
      /\ isDigit c0 || Ascii.eqb c0 "." = true.
Proof.
  intros source ic tok cur Hlen H.
  exact (lexNumeric_shape source ic Hlen _ H eq_refl).
Qed.

Lemma lexNumeric_numeral_shape_witness :
  len "1.5e+10;" < max_len
  /\ lexNumeric "1.5e+10;" cursor0
     = Done (Some (token "1.5e+10" NumericKind 0 0), cursor_at 7 0 8, true)
  /\ exists value c0,
      Some (token "1.5e+10" NumericKind 0 0)
      = Some {| Value := value; Kind := NumericKind; Loc := loc cursor0 |}
      /\ slice "1.5e+10;" (pointer cursor0) (pointer (cursor_at 7 0 8)) = Done value
      /\ pointer cursor0 < pointer (cursor_at 7 0 8)
      /\ forall_bytes is_numeral_byte value = true
      /\ (count_byte "e" value <= 1)%nat
      /\ index "1.5e+10;" (pointer cursor0) = Done c0
      /\ isDigit c0 || Ascii.eqb c0 "." = true.
Proof.
  assert (H1 : len "1.5e+10;" < max_len) by (vm_compute; reflexivity).
  assert (H2 : lexNumeric "1.5e+10;" cursor0
               = Done (Some (token "1.5e+10" NumericKind 0 0), cursor_at 7 0 8, true))
    by (vm_compute; reflexivity).
  exact (conj H1 (conj H2 (lexNumeric_numeral_shape _ _ _ _ H1 H2))).
Defined.

(** X11: at a cursor on a letter, [lexIdentifier] matches the longest run of
    letters, digits, [$] and [_] that begins there, and the value of its
    token, of kind Identifier, is that run in lower case. *)
Theorem lexIdentifier_longest_run :
  forall (source : string) (ic : cursor) (c : ascii),
    len source < max_len ->
    index source (pointer ic) = Done c ->
    isAlpha c = true ->
    exists value cur,
      lexIdentifier source ic
      = Done (Some {| Value := ToLower value; Kind := IdentifierKind; Loc := loc ic |},
              cur, true)
      /\ slice source (pointer ic) (pointer cur) = Done value
      /\ forall_bytes is_ident_byte value = true
      /\ pointer ic < pointer cur
      /\ (forall c', index source (pointer cur) = Done c' -> is_ident_byte c' = false).
Proof.
  intros source ic c Hlen Hc Ha.
  destruct (lexIdentifier_bare source ic c Hlen Hc Ha)
    as (x & Hx & value & cur & -> & H).
  exists value, cur; split; [exact Hx|exact H].
Qed.

Lemma lexIdentifier_longest_run_witness :
  len "My_Table1 x" < max_len
  /\ index "My_Table1 x" (pointer cursor0) = Done "M"%char
  /\ isAlpha "M" = true
  /\ exists value cur,
      lexIdentifier "My_Table1 x" cursor0
      = Done (Some {| Value := ToLower value; Kind := IdentifierKind;
                      Loc := loc cursor0 |}, cur, true)
      /\ slice "My_Table1 x" (pointer cursor0) (pointer cur) = Done value
      /\ forall_bytes is_ident_byte value = true
      /\ pointer cursor0 < pointer cur
      /\ (forall c', index "My_Table1 x" (pointer cur) = Done c' ->
                     is_ident_byte c' = false).
Proof.
  assert (H1 : len "My_Table1 x" < max_len) by (vm_compute; reflexivity).
  assert (H2 : index "My_Table1 x" (pointer cursor0) = Done "M"%char) by reflexivity.
  assert (H3 : isAlpha "M" = true) by reflexivity.
  exact (conj H1 (conj H2 (conj H3 (lexIdentifier_longest_run _ _ _ H1 H2 H3)))).
Defined.

Lemma lex_tokens_plain_witness :
  len two_line_source < max_len
  /\ lex two_line_source = Done (Tokens two_line_tokens)
  /\ In (token "from" KeywordKind 1 2) two_line_tokens
  /\ (Kind (token "from" KeywordKind 1 2) <> StringKind
      /\ Value (token "from" KeywordKind 1 2) <> "").
Proof.
  assert (H1 : len two_line_source < max_len) by (vm_compute; reflexivity).
  assert (H2 : lex two_line_source = Done (Tokens two_line_tokens))
    by (vm_compute; reflexivity).
  assert (H3 : In (token "from" KeywordKind 1 2) two_line_tokens)
    by (do 4 right; left; reflexivity).
  exact (conj H1 (conj H2 (conj H3 (lex_tokens_plain _ _ _ H1 H2 H3)))).
Defined.

Lemma lex_fails_on_quote_witness :
  len "select 'a' from t" < max_len
  /\ index "select 'a' from t" 9 = Done "'"%char
  /\ is_quote "'" = true
  /\ exists message, lex "select 'a' from t" = Done (LexError message).
Proof.
  assert (H1 : len "select 'a' from t" < max_len) by (vm_compute; reflexivity).
  assert (H2 : index "select 'a' from t" 9 = Done "'"%char) by reflexivity.
  assert (H3 : is_quote "'" = true) by reflexivity.
  exact (conj H1 (conj H2 (conj H3 (lex_fails_on_quote _ _ _ H1 H2 H3)))).
Defined.

(** ** Columns and offsets *)

Lemma lexNumeric_end_tracks source ic cur :
  Line (loc cur) = Line (loc ic) ->
  Col (loc cur)
  = Col (loc ic) + (pointer cur - pointer ic)
    + (if pointer cur <? len source then 1 else 0) ->
  ensures (lexNumeric_end source ic cur)
          (fun x => tracks ic (numeral_extra source x) x).
Proof.
  intros Hl Hc; unfold lexNumeric_end; repeat ensures_step; no_match_case.
  apply ensures_Done; intros _; unfold numeral_extra; cbn [fst snd]; auto.
Qed.

Lemma lexNumeric_loop_tracks fuel source ic :
  len source < max_len ->
  good source ic ->
  forall cur periodFound expMarkerFound,
    pointer ic <= pointer cur <= len source ->
    Line (loc cur) = Line (loc ic) ->
    Col (loc cur) = Col (loc ic) + (pointer cur - pointer ic) ->
    ensures (lexNumeric_loop fuel source ic cur periodFound expMarkerFound)
            (fun x => tracks ic (numeral_extra source x) x).
Proof.
  unfold max_len; intros Hlen Hic.
  induction fuel as [|fuel IH]; intros cur periodFound expMarkerFound Hp Hl Hc;
    cbn [lexNumeric_loop]; repeat ensures_step; no_match_case;
    try match goal with
        | |- context [if ?b then col_incr _ else _] => destruct b
        end;
    unfold good in Hic;
    first [apply IH | apply lexNumeric_end_tracks];
    cursors; trivial;
    try match goal with
        | H : (?a <? ?b) = _ |- context [?a <? ?b] => rewrite H
        end;
    bools; unwrap; lia.
Qed.

Lemma lexCharacterDelimited_loop_tracks fuel source ic delimiter :
  len source < max_len ->
  good source ic ->
  forall cur value,
    pointer ic < pointer cur <= len source ->
    Line (loc cur) = Line (loc ic) ->
    Col (loc cur) = Col (loc ic) + (pointer cur - pointer ic) ->
    ensures (lexCharacterDelimited_loop fuel source ic cur delimiter value)
            (tracks ic 0).
Proof.
  unfold max_len; intros Hlen Hic.
  induction fuel as [|fuel IH]; intros cur value Hp Hl Hc;
    cbn [lexCharacterDelimited_loop]; repeat ensures_step; no_match_case;
    try (apply ensures_Done; intros _; cbn [fst snd]; split; [trivial|lia]);
    unfold good in Hic; bools; apply IH; cursors; unwrap; lia.
Qed.

Lemma lexCharacterDelimited_tracks source ic delimiter :
  len source < max_len -> good source ic ->
  ensures (lexCharacterDelimited source ic delimiter) (tracks ic 0).
Proof.
  unfold max_len; intros Hlen Hic; unfold lexCharacterDelimited.
  repeat ensures_step; no_match_case.
  pose proof Hic as Hic'; unfold good in Hic'; bools.
  apply lexCharacterDelimited_loop_tracks; auto; cursors; unwrap; lia.
Qed.

Lemma lexIdentifier_loop_tracks fuel source ic :
  len source < max_len ->
  good source ic ->
  forall cur value,
    pointer ic < pointer cur <= len source ->
    Line (loc cur) = Line (loc ic) ->
    Col (loc cur) = Col (loc ic) + (pointer cur - pointer ic) ->
    ensures (lexIdentifier_loop fuel source ic cur value) (tracks ic 0).
Proof.
  unfold max_len; intros Hlen Hic.
  induction fuel as [|fuel IH]; intros cur value Hp Hl Hc;
    cbn [lexIdentifier_loop]; unfold lexIdentifier_end;
    repeat ensures_step; no_match_case;
    try (apply ensures_Done; intros _; cbn [fst snd]; split; [trivial|lia]);
    unfold good in Hic; bools; apply IH; cursors; unwrap; lia.
Qed.

Lemma lexIdentifier_tracks source ic :
  len source < max_len -> good source ic ->
  ensures (lexIdentifier source ic) (tracks ic 0).
Proof.
  intros Hlen Hic; unfold lexIdentifier.
  apply ensures_bind; intros [[token newCursor] ok] Hd.
  apply ensures_if; intros Hok; subst.
  - intros x Hx; inversion Hx; subst.
    exact (lexCharacterDelimited_tracks source ic _ Hlen Hic _ Hd).
  - unfold max_len in Hlen; repeat ensures_step; no_match_case.
    pose proof Hic as Hic'; unfold good in Hic'; bools.
    apply lexIdentifier_loop_tracks; auto; cursors; unwrap; lia.
Qed.

Lemma lexKeyword_tracks source ic :
  len source < max_len -> good source ic ->
  ensures (lexKeyword source ic) (tracks ic 0).
Proof.
  intros Hlen Hic; unfold lexKeyword.
  apply ensures_bind; intros m Hm.
  apply (longestMatch_bound source ic keywords Hlen eq_refl (proj1 Hic)) in Hm.
  repeat ensures_step; no_match_case.
  unfold max_len, good in *; apply ensures_Done; intros _; cursors; unwrap.
  split; [reflexivity|lia].
Qed.

(** X15: a match of [lexKeyword], [lexString] or [lexIdentifier] keeps the
    line and moves the column by the number of bytes between the two
    cursors. *)
Theorem sublexer_column_tracks_offset :
  forall (l : lexer) (source : string) (ic : cursor) (tok : option Token) (cur : cursor),
    In l [lexKeyword; lexString; lexIdentifier] ->
    len source < max_len ->
    good source ic ->
    l source ic = Done (tok, cur, true) ->
    Line (loc cur) = Line (loc ic)
    /\ Col (loc cur) = Col (loc ic) + (pointer cur - pointer ic).
Proof.
  intros l source ic tok cur Hin Hlen Hg H.
  assert (Ht : tracks ic 0 (tok, cur, true)).
  { simpl in Hin; destruct Hin as [<-|[<-|[<-|[]]]].
    - exact (lexKeyword_tracks source ic Hlen Hg _ H).
    - exact (lexCharacterDelimited_tracks source ic _ Hlen Hg _ H).
    - exact (lexIdentifier_tracks source ic Hlen Hg _ H). }
  destruct (Ht eq_refl) as [Hl Hc]; cbn [fst snd] in *; split; [exact Hl|lia].
Qed.

Lemma sublexer_column_tracks_offset_witness :
  In lexIdentifier [lexKeyword; lexString; lexIdentifier]
  /\ len "ab c" < max_len
  /\ good "ab c" cursor0
  /\ lexIdentifier "ab c" cursor0
     = Done (Some (token "ab" IdentifierKind 0 0), cursor_at 2 0 2, true)
  /\ (Line (loc (cursor_at 2 0 2)) = Line (loc cursor0)
      /\ Col (loc (cursor_at 2 0 2))
         = Col (loc cursor0) + (pointer (cursor_at 2 0 2) - pointer cursor0)).
Proof.
  assert (H1 : In lexIdentifier [lexKeyword; lexString; lexIdentifier])
    by (right; right; left; reflexivity).
  assert (H2 : len "ab c" < max_len) by (vm_compute; reflexivity).
  assert (H3 : good "ab c" cursor0) by apply good_cursor0.
  assert (H4 : lexIdentifier "ab c" cursor0
               = Done (Some (token "ab" IdentifierKind 0 0), cursor_at 2 0 2, true))
    by (vm_compute; reflexivity).
  exact (conj H1 (conj H2 (conj H3 (conj H4
           (sublexer_column_tracks_offset _ _ _ _ _ H1 H2 H3 H4))))).
Defined.

(** X16: a match of [lexNumeric] keeps the line; it moves the column by the
    number of bytes of the numeral when the numeral ends the source, and by
    one more when a byte of the source follows the numeral. *)
Theorem lexNumeric_column_one_more :
  forall (source : string) (ic : cursor) (tok : option Token) (cur : cursor),
    len source < max_len ->
    good source ic ->
    lexNumeric source ic = Done (tok, cur, true) ->
    Line (loc cur) = Line (loc ic)
    /\ Col (loc cur)
       = Col (loc ic) + (pointer cur - pointer ic)
         + (if pointer cur <? len source then 1 else 0).
Proof.
  intros source ic tok cur Hlen Hg H.
  assert (Hp : pointer ic <= pointer ic <= len source) by (unfold good in Hg; lia).
  exact (lexNumeric_loop_tracks _ source ic Hlen Hg ic false false Hp eq_refl
           ltac:(lia) _ H eq_refl).
Qed.

Lemma lexNumeric_column_one_more_witness :
  len "12;" < max_len
  /\ good "12;" cursor0
  /\ lexNumeric "12;" cursor0
     = Done (Some (token "12" NumericKind 0 0), cursor_at 2 0 3, true)
  /\ (Line (loc (cursor_at 2 0 3)) = Line (loc cursor0)
      /\ Col (loc (cursor_at 2 0 3))
         = Col (loc cursor0) + (pointer (cursor_at 2 0 3) - pointer cursor0)
           + (if pointer (cursor_at 2 0 3) <? len "12;" then 1 else 0)).
Proof.
  assert (H1 : len "12;" < max_len) by (vm_compute; reflexivity).
  assert (H2 : good "12;" cursor0) by apply good_cursor0.
  assert (H3 : lexNumeric "12;" cursor0
               = Done (Some (token "12" NumericKind 0 0), cursor_at 2 0 3, true))
    by (vm_compute; reflexivity).
  exact (conj H1 (conj H2 (conj H3 (lexNumeric_column_one_more _ _ _ _ H1 H2 H3)))).
Defined.

(** ** Unterminated literals *)

Lemma drop_get s :
  forall n c, String.get n s = Some c -> drop n s = String c (drop (S n) s).
Proof.
  induction s as [|a s IH]; intros [|n] c H; simpl in *; try discriminate.
  - inversion H; reflexivity.
  - exact (IH n c H).
Qed.

Lemma drop_past s : forall n, (String.length s <= n)%nat -> drop n s = "".
Proof.
  induction s as [|a s IH]; intros [|n] H; simpl in *; trivial; try lia.
  apply IH; lia.
Qed.

Lemma rest_after_index source p c :
  index source p = Done c -> rest_after source p = String c (rest_after source (p + 1)).
Proof.
  intros H; unfold rest_after.
  replace (N.to_nat (p + 1)) with (S (N.to_nat p)) by lia.
  apply drop_get, index_get, H.
Qed.

Lemma rest_after_end source p : len source <= p -> rest_after source p = "".
Proof. unfold rest_after, len; intros H; apply drop_past; lia. Qed.

Lemma terminated_spec_cons d c text :
  Ascii.eqb c d = false ->
  terminated_spec d (String c text) = terminated_spec d text.
Proof. intros H; simpl; rewrite H; reflexivity. Qed.

(** The scanning loop of [lexCharacterDelimited] matches exactly when the
    text from its cursor on is terminated. *)
Lemma lexCharacterDelimited_loop_terminated source ic delimiter :
  len source < max_len ->
  forall fuel cur value,
    pointer cur <= len source ->
    len source <= pointer cur + N.of_nat fuel ->
    exists x,
      lexCharacterDelimited_loop fuel source ic cur delimiter value = Done x
      /\ snd x = terminated_spec delimiter (rest_after source (pointer cur))
      /\ (snd x = false -> x = (None, ic, false)).
Proof.
  unfold max_len; intros Hlen.
  induction fuel as [|fuel IH]; intros cur value Hp Hf;
    cbn [lexCharacterDelimited_loop]; destruct (pointer cur <? len source) eqn:Hlt;
    bools; try lia;
    try (rewrite rest_after_end by lia; eexists; split; [reflexivity|split; reflexivity]).
  destruct (index_returns source (pointer cur) Hlt) as [c Hc].
  rewrite Hc, (rest_after_index _ _ _ Hc); cbn [bind].
  destruct (Ascii.eqb c delimiter) eqn:Ec.
  - rewrite !(add_small (pointer cur) 1) by lia.
    destruct (len source <=? pointer cur + 1) eqn:Elast; bools.
    + rewrite (rest_after_end source (pointer cur + 1)) by lia.
      cbn [terminated_spec]; rewrite Ec.
      eexists; split; [reflexivity|split; [reflexivity|intros H; discriminate H]].
    + destruct (index_returns source (pointer cur + 1) Elast) as [c' Hc'].
      rewrite Hc', (rest_after_index _ _ _ Hc'); cbn [bind terminated_spec]; rewrite Ec.
      destruct (Ascii.eqb c' delimiter) eqn:Ec'; cbn [negb].
      * replace (pointer cur + 1 + 1) with
          (pointer (pointer_incr (col_incr (col_incr (pointer_incr cur)))))
          by (cursors; unwrap; lia).
        apply IH; cursors; unwrap; lia.
      * eexists; split; [reflexivity|split; [reflexivity|intros H; discriminate H]].
  - rewrite (terminated_spec_cons _ _ _ Ec).
    replace (pointer cur + 1) with (pointer (pointer_incr (col_incr cur)))
      by (cursors; unwrap; lia).
    apply IH; cursors; unwrap; lia.
Qed.

(** [lexCharacterDelimited] matches exactly when the byte at the cursor is
    the delimiter and the text after it is terminated. *)
Lemma lexCharacterDelimited_terminated source ic delimiter :
  len source < max_len ->
  pointer ic <= len source ->
  exists x,
    lexCharacterDelimited source ic delimiter = Done x
    /\ snd x = (match index source (pointer ic) with
                | Done c => Ascii.eqb c delimiter
                | _ => false
                end
                && terminated_spec delimiter (rest_after source (pointer ic + 1)))
    /\ (snd x = false -> x = (None, ic, false)).
Proof.
  intros Hlen Hp; unfold lexCharacterDelimited.
  destruct (slice_returns source (pointer ic) (len source) (conj Hp (N.le_refl _)))
    as [rest Hrest].
  rewrite Hrest; cbn [bind]; apply slice_len in Hrest.
  destruct (len rest =? 0) eqn:Eempty; bools.
  { rewrite (index_past_end source (pointer ic)) by lia.
    eexists; split; [reflexivity|split; reflexivity]. }
  assert (Hlt : pointer ic < len source) by lia.
  destruct (index_returns source (pointer ic) Hlt) as [c Hc]; rewrite Hc; cbn [bind].
  destruct (Ascii.eqb c delimiter); cbn [negb andb];
    [|eexists; split; [reflexivity|split; reflexivity]].
  unfold max_len in Hlen.
  replace (pointer ic + 1) with (pointer (pointer_incr (col_incr ic)))
    by (cursors; unwrap; lia).
  apply lexCharacterDelimited_loop_terminated; trivial; unfold len in *; cursors;
    unwrap; lia.
Qed.

(** A text without the delimiter is not terminated. *)
Lemma terminated_spec_no_delimiter d :
  forall text, forall_bytes (fun c => negb (Ascii.eqb c d)) text = true ->
               terminated_spec d text = false.
Proof.
  induction text as [|c text IH]; intros H; [reflexivity|].
  cbn [forall_bytes] in H; apply andb_prop in H as [Hc Ht].
  apply negb_true_iff in Hc; rewrite (terminated_spec_cons _ _ _ Hc); exact (IH Ht).
Qed.

(** The main loop arrives at every cursor that [reaches] describes. *)
Lemma reaches_lex_loop source tokens cur :
  len source < max_len ->
  reaches source tokens cur ->
  good source cur
  /\ exists fuel, len source <= pointer cur + N.of_nat fuel
                  /\ lex source = lex_loop fuel source tokens cur.
Proof.
  intros Hlen;
    induction 1 as [|tokens cur token newCursor _ [Hg (fuel & Hf & Hrun)] Hp Htry].
  - split; [apply good_cursor0|].
    exists (String.length source); split; [|reflexivity].
    unfold len, cursor0; cbn [pointer]; lia.
  - pose proof (try_lexers_ensures _ _ _ _ (lexers_advance source cur Hlen Hg) _ Htry
                  token newCursor eq_refl eq_refl) as (Hadv & Hg' & _).
    cbn [fst snd] in *; split; [exact Hg'|].
    destruct fuel as [|fuel]; [lia|].
    exists fuel; split; [lia|].
    rewrite Hrun; apply lex_loop_step; assumption.
Qed.

(** At a cursor on a quote that opens an unterminated literal no sub-lexer
    matches. *)
Lemma try_lexers_unterminated source cur d :
  len source < max_len ->
  is_quote d = true ->
  index source (pointer cur) = Done d ->
  terminated_spec d (rest_after source (pointer cur + 1)) = false ->
  try_lexers lexers source cur = Done None.
Proof.
  intros Hlen Hq Hd Hu.
  assert (Hp : pointer cur <= len source)
    by (apply N.lt_le_incl; exact (index_Done_lt _ _ _ Hd)).
  assert (Hown : lexCharacterDelimited source cur d = Done (None, cur, false)).
  { destruct (lexCharacterDelimited_terminated source cur d Hlen Hp)
      as (x & Hx & Hsnd & Hno).
    rewrite Hu, andb_false_r in Hsnd; rewrite Hx, (Hno Hsnd); reflexivity. }
  rewrite (try_lexers_on_quote _ _ _ Hlen Hq Hd), !try_lexers_cons.
  unfold lexString, lexIdentifier.
  destruct (quote_cases d Hq) as [->| ->].
  - rewrite Hown; cbn [bind snd].
    rewrite (lexCharacterDelimited_other_byte _ _ _ "034" Hd eq_refl); cbn [bind].
    rewrite Hd; reflexivity.
  - rewrite (lexCharacterDelimited_other_byte _ _ _ "'" Hd eq_refl); cbn [bind snd].
    rewrite Hown; cbn [bind].
    rewrite Hd; reflexivity.
Qed.

(** Where the loop of [lex] arrives on a quote that opens an unterminated
    literal, [lex] returns the error built from the tokens so far and that
    cursor. *)
Lemma lex_stuck_on_unterminated source tokens cur d :
  len source < max_len ->
  reaches source tokens cur ->
  is_quote d = true ->
  index source (pointer cur) = Done d ->
  terminated_spec d (rest_after source (pointer cur + 1)) = false ->
  lex source = Done (LexError (lex_error tokens cur)).
Proof.
  intros Hlen Hr Hq Hd Hu.
  destruct (reaches_lex_loop source tokens cur Hlen Hr) as (_ & fuel & Hf & ->).
  pose proof (index_Done_lt _ _ _ Hd) as Hp.
  destruct fuel as [|fuel]; [lia|].
  cbn [lex_loop]; rewrite (proj2 (N.ltb_lt _ _) Hp).
  rewrite (try_lexers_unterminated _ _ _ Hlen Hq Hd Hu); reflexivity.
Qed.

(** C7: an unterminated delimited literal is never accepted.  For every
    source that a Go string can hold, every cursor and every delimiter:
    when the text after the cursor's byte is not terminated in the sense of
    the specification ([terminated_spec]: doubled delimiters are escaped
    pairs and do not close the literal), [lexCharacterDelimited] does not
    match and returns the cursor it was given; when that text is terminated
    and the cursor is on the delimiter, it matches, so the unterminated
    literals are exactly the ones that are refused.  Wherever the loop of
    [lex] arrives on a single or double quote that opens an unterminated
    literal, after any tokens, [lex] returns an error and no tokens; the
    error is [lex_error] of the tokens so far and the stuck cursor: it
    carries the value of the last token, if there is one, and the line and
    column of the cursor.  On ['abc] the error is at 0:0 without a hint;
    after [select] it names [select] and 0:7; a literal that ends in a
    doubled delimiter is refused in the same way, also on a second line. *)
Theorem lex_unterminated_literal :
  (forall (source : string) (ic : cursor) (delimiter : ascii),
      len source < max_len ->
      pointer ic <= len source ->
      terminated_spec delimiter (rest_after source (pointer ic + 1)) = false ->
      lexCharacterDelimited source ic delimiter = Done (None, ic, false))
  /\ (forall (source : string) (ic : cursor) (delimiter : ascii),
         len source < max_len ->
         index source (pointer ic) = Done delimiter ->
         terminated_spec delimiter (rest_after source (pointer ic + 1)) = true ->
         exists token newCursor,
           lexCharacterDelimited source ic delimiter = Done (token, newCursor, true))
  /\ (forall (source : string) (tokens : list Token) (cur : cursor) (d : ascii),
         len source < max_len ->
         reaches source tokens cur ->
         is_quote d = true ->
         index source (pointer cur) = Done d ->
         terminated_spec d (rest_after source (pointer cur + 1)) = false ->
         lex source = Done (LexError (lex_error tokens cur)))
  /\ lex "'abc" = Done (LexError "Unable to lex token, at 0:0")
  /\ lex "select 'abc" = Done (LexError "Unable to lex token after select, at 0:7")
  /\ lex "'ab''c" = Done (LexError "Unable to lex token, at 0:0")
  /\ lex ("select a," ++ String "010" "'a''")
     = Done (LexError "Unable to lex token after ,, at 1:0").
Proof.
  split; [|split; [|split; [|repeat split; vm_compute; reflexivity]]].
  - intros source ic delimiter Hlen Hp Hu.
    destruct (lexCharacterDelimited_terminated source ic delimiter Hlen Hp)
      as (x & Hx & Hsnd & Hno).
    rewrite Hu, andb_false_r in Hsnd; rewrite Hx, (Hno Hsnd); reflexivity.
  - intros source ic delimiter Hlen Hd Ht.
    assert (Hp : pointer ic <= len source)
      by (apply N.lt_le_incl; exact (index_Done_lt _ _ _ Hd)).
    destruct (lexCharacterDelimited_terminated source ic delimiter Hlen Hp)
      as ([[token newCursor] ok] & Hx & Hsnd & _).
    rewrite Hd, Ht, Ascii.eqb_refl in Hsnd; cbn [snd andb] in Hsnd; subst ok.
    exists token, newCursor; exact Hx.
  - exact lex_stuck_on_unterminated.
Qed.

Lemma lex_unterminated_literal_witness :
  (len "'a''" < max_len
   /\ pointer cursor0 <= len "'a''"
   /\ terminated_spec "'" (rest_after "'a''" (pointer cursor0 + 1)) = false
   /\ lexCharacterDelimited "'a''" cursor0 "'" = Done (None, cursor0, false))
  /\ (len "'a''b'" < max_len
      /\ index "'a''b'" (pointer cursor0) = Done "'"%char
      /\ terminated_spec "'" (rest_after "'a''b'" (pointer cursor0 + 1)) = true
      /\ exists token newCursor,
          lexCharacterDelimited "'a''b'" cursor0 "'" = Done (token, newCursor, true))
  /\ (len "select 'ab''c" < max_len
      /\ reaches "select 'ab''c" [token "select" KeywordKind 0 0] (cursor_at 7 0 7)
      /\ is_quote "'" = true
      /\ index "select 'ab''c" (pointer (cursor_at 7 0 7)) = Done "'"%char
      /\ terminated_spec "'" (rest_after "select 'ab''c"
                                         (pointer (cursor_at 7 0 7) + 1)) = false
      /\ lex "select 'ab''c"
         = Done (LexError (lex_error [token "select" KeywordKind 0 0]
                                     (cursor_at 7 0 7)))).
Proof.
  assert (A1 : len "'a''" < max_len) by (vm_compute; reflexivity).
  assert (A2 : pointer cursor0 <= len "'a''") by (vm_compute; discriminate).
  assert (A3 : terminated_spec "'" (rest_after "'a''" (pointer cursor0 + 1)) = false)
    by reflexivity.
  assert (B1 : len "'a''b'" < max_len) by (vm_compute; reflexivity).
  assert (B2 : index "'a''b'" (pointer cursor0) = Done "'"%char) by reflexivity.
  assert (B3 : terminated_spec "'" (rest_after "'a''b'" (pointer cursor0 + 1)) = true)
    by reflexivity.
  assert (H1 : len "select 'ab''c" < max_len) by (vm_compute; reflexivity).
  assert (H2 : reaches "select 'ab''c" [token "select" KeywordKind 0 0]
                       (cursor_at 7 0 7)).
  { apply (reaches_step _ [token "select" KeywordKind 0 0] (cursor_at 6 0 6) None);
      [|vm_compute; reflexivity|vm_compute; reflexivity].
    apply (reaches_step _ [] cursor0 (Some (token "select" KeywordKind 0 0)));
      [apply reaches_start|vm_compute; reflexivity|vm_compute; reflexivity]. }
  assert (H3 : is_quote "'" = true) by reflexivity.
  assert (H4 : index "select 'ab''c" (pointer (cursor_at 7 0 7)) = Done "'"%char)
    by reflexivity.
  assert (H5 : terminated_spec "'" (rest_after "select 'ab''c"
                                               (pointer (cursor_at 7 0 7) + 1)) = false)
    by reflexivity.
  exact (conj
           (conj A1 (conj A2 (conj A3
              (proj1 lex_unterminated_literal _ _ _ A1 A2 A3))))
           (conj
              (conj B1 (conj B2 (conj B3
                 (proj1 (proj2 lex_unterminated_literal) _ _ _ B1 B2 B3))))
              (conj H1 (conj H2 (conj H3 (conj H4 (conj H5
                 (proj1 (proj2 (proj2 lex_unterminated_literal))
                    _ _ _ _ H1 H2 H3 H4 H5)))))))).
Defined.
